(** * Jexl: the JSON expression language of zephraph/jexl

    A shallow embedding of the macro expander ([src/macro.ts]), of the
    tree-walking evaluator with its [Environment] class and builtin table
    (the interpreter module) and of [validateProgramTypes]
    ([src/schemas/jexl.ts]), followed by the properties of the language
    engine that the specification states about them.

    Conventions of the embedding.
    - A parsed JSON document is a [Json] tree.  An object is the list of
      its own properties in the order [Object.keys] enumerates them; keys
      are pairwise distinct and none is ["__proto__"].
    - JSON numbers are IEEE 754 doubles, here the kernel's [float].
    - A [string] is a sequence of characters, one [ascii] for each.
    - An [Environment] is a mutable object that child frames alias through
      their [parent] field, so frames live in a heap ([World]) and are
      named by their address.
    - Recursion that the host runs on its call stack (re-expansion of
      macros, calls of user functions) is bounded by a fuel argument that
      counts the depth of nested calls; running out of it is reported as a
      separate outcome and never as a result. *)

From Stdlib Require Import Floats.PrimFloat.
From stdpp Require Import gmap strings list fin_maps pretty.

Local Open Scope string_scope.
Local Open Scope list_scope.
Local Open Scope nat_scope.
Set Warnings "-register-all".

(** ** JSON trees *)

Inductive Json : Type :=
| JNull
| JBool (b : bool)
| JNum (n : float)
| JStr (s : string)
| JArr (items : list Json)
| JObj (fields : list (string * Json)).

(** [obj[key]] on a list of own properties. *)
Fixpoint assoc {A : Type} (key : string) (props : list (string * A)) : option A :=
  match props with
  | [] => None
  | (k, v) :: rest => if decide (k = key) then Some v else assoc key rest
  end.

(** The elements of an array as properties: the indices, in decimal. *)
Definition indexed {A : Type} (items : list A) : list (string * A) :=
  imap (fun i v => (pretty i, v)) items.

(** The own enumerable properties of a host value: those of an object, the
    indices of an array, none for a primitive. *)
Definition own_entries (value : Json) : list (string * Json) :=
  match value with
  | JObj fields => fields
  | JArr items => indexed items
  | _ => []
  end.

(** [Object.keys(value)]. *)
Definition own_keys (value : Json) : list string := (own_entries value).*1.

(** [payload.key] where [payload] was destructured from an expression:
    only an object has such a property among parsed JSON values (the keys
    read this way are never [length] or an index). *)
Definition field (payload : Json) (key : string) : option Json :=
  match payload with
  | JObj fields => assoc key fields
  | _ => None
  end.

(** What iterating a string yields: its characters, each a string. *)
Definition characters (s : string) : list Json :=
  (fun c => JStr (String c EmptyString)) <$> String.list_ascii_of_string s.

(** [typeof expr === "string" || ... || expr === null]. *)
Definition is_primitive (expr : Json) : bool :=
  match expr with
  | JArr _ | JObj _ => false
  | _ => true
  end.

(** ** The macro expander ([src/macro.ts]) *)

(** [Param]: a bare name, or a record with the one entry [name: type]. *)
Inductive Param : Type :=
| PName (name : string)
| PTyped (name type : string).

(** [Macro], the static type of the schema's [MacroDef]:
    [{macro: {name, params, body}}]. *)
Record Macro : Type := {
  macro_name : string;
  macro_params : list Param;
  macro_body : Json;
}.

Definition getParamName (param : Param) : string :=
  match param with
  | PName name => name
  | PTyped name _ => name
  end.

(** [args[i]] for the value stored under the macro's key: an element of an
    array, a character of a string, the property named by the index of an
    object, [undefined] ([None]) on a number or a boolean.  On [null] the
    host throws, which [bind_params] below handles. *)
Definition arg_at (args : Json) (i : nat) : option Json :=
  match args with
  | JArr items => items !! i
  | JObj fields => assoc (pretty i) fields
  | JStr s => match String.get i s with
              | Some c => Some (JStr (String c EmptyString))
              | None => None
              end
  | _ => None
  end.

(** The [forEach] that fills [bindings]: [bindings.set(paramName, args[i])].
    An entry may hold [undefined] ([Some None] in the map).  [None] is the
    host's TypeError for reading an index of [null]. *)
Fixpoint bind_from (i : nat) (params : list Param) (args : Json)
    (bindings : gmap string (option Json)) : gmap string (option Json) :=
  match params with
  | [] => bindings
  | param :: rest =>
      bind_from (S i) rest args (<[getParamName param := arg_at args i]> bindings)
  end.

Definition bind_params (params : list Param) (args : Json)
    : option (gmap string (option Json)) :=
  match params, args with
  | _ :: _, JNull => None
  | _, _ => Some (bind_from 0 params args ∅)
  end.

(** The test that opens [substitute]'s object case: the node has a [ref]
    property that is a string, [bindings] has it, and the bound value is
    not [undefined]. *)
Definition bound_ref (props : list (string * Json))
    (bindings : gmap string (option Json)) : option Json :=
  match assoc "ref" props with
  | Some (JStr name) =>
      match bindings !! name with
      | Some (Some boundValue) => Some boundValue
      | _ => None
      end
  | _ => None
  end.

(** [substitute(expr, bindings)]: a reference to a bound name as the
    expression bound to it, any other object rebuilt key by key. *)
Fixpoint substitute (expr : Json) (bindings : gmap string (option Json)) : Json :=
  let under (value : Json) : Json :=
    match value with
    | JArr items => JArr (map (fun v => substitute v bindings) items)
    | JObj _ => substitute value bindings
    | _ => value
    end in
  match expr with
  | JArr items => JObj (indexed (map under items))
  | JObj fields =>
      match bound_ref fields bindings with
      | Some boundValue => boundValue
      | None => JObj (map (fun '(key, value) => (key, under value)) fields)
      end
  | _ => expr
  end.

(** What the host throws: an [Error] of the program's own, with its
    message, or a TypeError of the host. *)
Inductive Exception : Type :=
| Error (message : string)
| TypeError.

(** What a recursive function of the host hands back: a value, a thrown
    exception, or nothing within the call depth that [fuel] allows. *)
Inductive Result (A : Type) : Type :=
| Done (a : A)
| Raise (e : Exception)
| OutOfFuel.
Arguments Done {A} a.
Arguments Raise {A} e.
Arguments OutOfFuel {A}.

#[global] Instance Result_ret : MRet Result := fun _ a => Done a.
#[global] Instance Result_bind : MBind Result := fun _ _ k r =>
  match r with
  | Done a => k a
  | Raise e => Raise e
  | OutOfFuel => OutOfFuel
  end.
#[global] Instance Result_fmap : FMap Result := fun _ _ f r =>
  match r with
  | Done a => Done (f a)
  | Raise e => Raise e
  | OutOfFuel => OutOfFuel
  end.

(** [keys.length === 1] and [macros.get(keys[0])] is a definition: the
    definition and [expr[macroName]]. *)
Definition invocation (props : list (string * Json)) (macros : gmap string Macro)
    : option (Macro * Json) :=
  match props with
  | [(macroName, args)] =>
      match macros !! macroName with
      | Some macroDef => Some (macroDef, args)
      | None => None
      end
  | _ => None
  end.

(** [expand(expr, macros)]: a primitive as it is; an object (or array)
    with one key that names a macro as the expansion of the macro's
    substituted body; any other object rebuilt key by key, with the
    arrays and objects under its keys expanded. *)
Fixpoint expand (fuel : nat) (expr : Json) (macros : gmap string Macro) : Result Json :=
  match fuel with
  | 0 => OutOfFuel
  | S fuel =>
      let under (value : Json) : Result Json :=
        match value with
        | JArr items => JArr <$> mapM (fun v => expand fuel v macros) items
        | JObj _ => expand fuel value macros
        | _ => Done value
        end in
      if is_primitive expr then Done expr
      else match invocation (own_entries expr) macros with
           | Some (macroDef, args) =>
               match bind_params (macro_params macroDef) args with
               | Some bindings =>
                   expand fuel (substitute (macro_body macroDef) bindings) macros
               | None => Raise TypeError
               end
           | None =>
               JObj <$> mapM (fun '(key, value) => pair key <$> under value)
                             (own_entries expr)
           end
  end.

(** ** Runtime values *)

(** [JexlValue], and [undefined], which [print] returns.  A sequence or a
    mapping is an object of the host: [id] is its identity (two values are
    the same object exactly when their [id]s agree), the rest its
    contents, which never change once the value is produced. *)
Inductive Value : Type :=
| VUndefined
| VNull
| VBool (b : bool)
| VNum (n : float)
| VStr (s : string)
| VArr (id : nat) (items : list Value)
| VObj (id : nat) (fields : list (string * Value)).

(** A literal expression as the value it is. *)
Definition literal (expr : Json) : Value :=
  match expr with
  | JBool b => VBool b
  | JNum n => VNum n
  | JStr s => VStr s
  | _ => VNull
  end.

(** The host's [a === b]. *)
Definition strict_equals (a b : Value) : bool :=
  match a, b with
  | VUndefined, VUndefined => true
  | VNull, VNull => true
  | VBool x, VBool y => bool_decide (x = y)
  | VNum x, VNum y => PrimFloat.eqb x y
  | VStr x, VStr y => bool_decide (x = y)
  | VArr i _, VArr j _ => bool_decide (i = j)
  | VObj i _, VObj j _ => bool_decide (i = j)
  | _, _ => false
  end.

(** [builtins.equals]: [(a, b) => a === b]. *)
Definition builtins_equals (a b : Value) : Value := VBool (strict_equals a b).

(** Structural equality of values, the relation the specification names
    for [equals]: primitives as the host compares them, sequences element
    by element, mappings key by key, whichever objects hold them. *)
Fixpoint struct_equal (a b : Value) : bool :=
  match a, b with
  | VArr _ xs, VArr _ ys =>
      (fix all2 (xs ys : list Value) : bool :=
         match xs, ys with
         | [], [] => true
         | x :: xs, y :: ys => struct_equal x y && all2 xs ys
         | _, _ => false
         end) xs ys
  | VObj _ fx, VObj _ fy =>
      bool_decide (length fx = length fy)
      && forallb (fun '(key, x) => match assoc key fy with
                                   | Some y => struct_equal x y
                                   | None => false
                                   end) fx
  | VArr _ _, _ | VObj _ _, _ => false
  | _, _ => strict_equals a b
  end.

(** Which object of the host a value is, when it is one. *)
Definition identity (v : Value) : option (bool * nat) :=
  match v with
  | VArr id _ => Some (true, id)
  | VObj id _ => Some (false, id)
  | _ => None
  end.

(** The host's truthiness of a value, as a conditional tests it. *)
Definition truthy (v : Value) : bool :=
  match v with
  | VUndefined | VNull => false
  | VBool b => b
  | VNum n => negb (PrimFloat.eqb n 0 || PrimFloat.is_nan n)
  | VStr s => negb (bool_decide (s = ""))
  | VArr _ _ | VObj _ _ => true
  end.

(** The host's truthiness of an expression node read off a payload
    ([None] is [undefined]); an array or an object is truthy. *)
Definition node_truthy (node : option Json) : bool :=
  match node with
  | None => false
  | Some (JArr _) | Some (JObj _) => true
  | Some lit => truthy (literal lit)
  end.

(** ** Environments *)

Record UserFunction : Type := {
  params : option Json;
  body : option Json;
}.

Inductive BuiltinFunction : Type :=
| Add | Subtract | Multiply | Divide | Less | Greater | Equals | Print | Concat.

Inductive Function : Type :=
| Builtin (fn : BuiltinFunction)
| User (fn : UserFunction).

(** An [Environment] object.  [parent] is the address of another one. *)
Record Environment : Type := {
  parent : option nat;
  vars : gmap string Value;
  functions : gmap string Function;
}.

(** The state the interpreter acts on: the [Environment] objects
    allocated so far, by address, and the lines [console.log] has
    written. *)
Record World : Type := {
  heap : list Environment;
  console : list (list Value);
}.

(** [new Environment(parent)]: a fresh object, at the next address. *)
Definition new_Environment (parent : option nat) (w : World) : nat * World :=
  (length (heap w),
   {| heap := heap w ++ [{| parent := parent; vars := ∅; functions := ∅ |}];
      console := console w |}).

(** The method bodies walk the [parent] chain.  A chain that never ends
    visits some object twice, hence more than [length h] objects; an
    address outside the heap is no object, and reading a property of it is
    the host's TypeError. *)
Fixpoint getVar_from (fuel : nat) (h : list Environment) (env : nat) (name : string)
    : Result Value :=
  match fuel with
  | 0 => OutOfFuel
  | S fuel =>
      match h !! env with
      | None => Raise TypeError
      | Some this =>
          match vars this !! name with
          | Some v => Done v
          | None =>
              match parent this with
              | Some p => getVar_from fuel h p name
              | None => Raise (Error ("Undefined variable: " +:+ name))
              end
          end
      end
  end.

Definition getVar (h : list Environment) (env : nat) (name : string) : Result Value :=
  getVar_from (length h) h env name.

Definition setVar (env : nat) (name : string) (value : Value) (w : World) : World :=
  {| heap := alter (fun this => {| parent := parent this;
                                   vars := <[name := value]> (vars this);
                                   functions := functions this |}) env (heap w);
     console := console w |}.

Definition defineFunction (env : nat) (name : string) (fn : Function) (w : World) : World :=
  {| heap := alter (fun this => {| parent := parent this;
                                   vars := vars this;
                                   functions := <[name := fn]> (functions this) |}) env (heap w);
     console := console w |}.

Fixpoint getFunction_from (fuel : nat) (h : list Environment) (env : nat) (name : string)
    : Result Function :=
  match fuel with
  | 0 => OutOfFuel
  | S fuel =>
      match h !! env with
      | None => Raise TypeError
      | Some this =>
          match functions this !! name with
          | Some func => Done func
          | None =>
              match parent this with
              | Some p => getFunction_from fuel h p name
              | None => Raise (Error ("Undefined function: " +:+ name))
              end
          end
      end
  end.

Definition getFunction (h : list Environment) (env : nat) (name : string)
    : Result Function :=
  getFunction_from (length h) h env name.

(** Parents are allocated before their children. *)
Definition wf_heap (h : list Environment) : Prop :=
  ∀ env this p, h !! env = Some this → parent this = Some p → p < env.

(** ** Builtins and the evaluator *)

(** What evaluation hands back: a value, or a thrown exception, either one
    with the world as it is at that point; [Diverges] when the call depth
    allowed by the fuel does not suffice; [IllTyped] when the host would go
    on with a value that is outside the types the interpreter declares for
    it, which this development does not follow: the name of a variable, of
    a function or of a parameter that is no string, an object without any
    key taken for a call, a [params] that is no array, an operand of an
    arithmetic builtin that is no number. *)
Inductive Outcome (A : Type) : Type :=
| Returned (a : A) (w : World)
| Thrown (e : Exception) (w : World)
| Diverges
| IllTyped.
Arguments Returned {A} a w.
Arguments Thrown {A} e w.
Arguments Diverges {A}.
Arguments IllTyped {A}.

Definition and_then {A B : Type} (o : Outcome A) (k : A → World → Outcome B)
    : Outcome B :=
  match o with
  | Returned a w => k a w
  | Thrown e w => Thrown e w
  | Diverges => Diverges
  | IllTyped => IllTyped
  end.

(** The outcome of a method of [Environment] that does not write. *)
Definition of_result {A : Type} (r : Result A) (w : World) : Outcome A :=
  match r with
  | Done a => Returned a w
  | Raise e => Thrown e w
  | OutOfFuel => Diverges
  end.

(** [args.map((arg) => evaluate(arg, env))]. *)
Fixpoint evaluate_each (ev : Json → World → Outcome Value) (args : list Json) (w : World)
    : Outcome (list Value) :=
  match args with
  | [] => Returned [] w
  | arg :: rest =>
      and_then (ev arg w) (fun v w =>
      and_then (evaluate_each ev rest w) (fun vs w => Returned (v :: vs) w))
  end.

(** [for (const e of doExpr.do) result = evaluate(e, env)]. *)
Fixpoint evaluate_last (ev : Json → World → Outcome Value) (body : list Json)
    (result : Value) (w : World) : Outcome Value :=
  match body with
  | [] => Returned result w
  | e :: rest => and_then (ev e w) (fun result w => evaluate_last ev rest result w)
  end.

(** The array pattern [[paramName]] against one element of [params]: the
    first element of an array, the first character of a string; any other
    value is not iterable.  [Some None] is [undefined]. *)
Definition first_of (param : Json) : option (option Json) :=
  match param with
  | JArr items => Some (head items)
  | JStr (String c _) => Some (Some (JStr (String c EmptyString)))
  | JStr EmptyString => Some None
  | _ => None
  end.

(** [func.params.forEach(([paramName], idx) =>
      localEnv.setVar(paramName, evaluatedArgs[idx]))]. *)
Fixpoint bind_arguments (params : list Json) (evaluatedArgs : list Value) (idx : nat)
    (localEnv : nat) (w : World) : Outcome unit :=
  match params with
  | [] => Returned () w
  | param :: rest =>
      match first_of param with
      | Some (Some (JStr paramName)) =>
          bind_arguments rest evaluatedArgs (S idx) localEnv
            (setVar localEnv paramName (nth idx evaluatedArgs VUndefined) w)
      | Some _ => IllTyped
      | None => Thrown TypeError w
      end
  end.

Definition arity_message (funcName : string) (expected actual : nat) : string :=
  "Function '" +:+ funcName +:+ "' expected " +:+ pretty expected
    +:+ " args but got " +:+ pretty actual.

Section Interpreter.

(** The host's conversion of a number to a string. *)
Variable Number_toString : float → string.

(** The JSON-Schema validator the engine calls ([validateJsonSchema] of
    the validator module, on top of Ajv). *)
Variable validateJsonSchema : Json → bool.

(** The host's [String(v)], which [concat] maps over its arguments.  (The
    earlier revision of the interpreter joins the arguments directly,
    which differs on [null] and [undefined] only.) *)
Fixpoint to_String (v : Value) : string :=
  match v with
  | VUndefined => "undefined"
  | VNull => "null"
  | VBool true => "true"
  | VBool false => "false"
  | VNum n => Number_toString n
  | VStr s => s
  | VArr _ items =>
      String.concat "," (map (fun item => match item with
                                          | VUndefined | VNull => ""
                                          | _ => to_String item
                                          end) items)
  | VObj _ _ => "[object Object]"
  end.

(** An arithmetic builtin, declared on numbers, at its first two
    arguments. *)
Definition on_numbers (op : float → float → Value) (args : list Value) : option Value :=
  match nth 0 args VUndefined, nth 1 args VUndefined with
  | VNum a, VNum b => Some (op a b)
  | _, _ => None
  end.

Definition keep (console : list (list Value)) (v : Value) : Value * list (list Value) :=
  (v, console).

(** [func(...evaluatedArgs)] for an entry of [builtins]: the result and
    the console after the call. *)
Definition call_builtin (fn : BuiltinFunction) (args : list Value)
    (console : list (list Value)) : option (Value * list (list Value)) :=
  match fn with
  | Add => keep console <$> on_numbers (fun a b => VNum (PrimFloat.add a b)) args
  | Subtract => keep console <$> on_numbers (fun a b => VNum (PrimFloat.sub a b)) args
  | Multiply => keep console <$> on_numbers (fun a b => VNum (PrimFloat.mul a b)) args
  | Divide => keep console <$> on_numbers (fun a b => VNum (PrimFloat.div a b)) args
  | Less => keep console <$> on_numbers (fun a b => VBool (PrimFloat.ltb a b)) args
  | Greater => keep console <$> on_numbers (fun a b => VBool (PrimFloat.ltb b a)) args
  | Equals => Some (builtins_equals (nth 0 args VUndefined) (nth 1 args VUndefined), console)
  | Print => Some (VUndefined, console ++ [args])
  | Concat => Some (VStr (String.concat "" (map to_String args)), console)
  end.

Definition builtins : list (string * BuiltinFunction) :=
  [("add", Add); ("subtract", Subtract); ("multiply", Multiply); ("divide", Divide);
   ("less", Less); ("greater", Greater); ("equals", Equals); ("print", Print);
   ("concat", Concat)].

(** [evaluate(expr, env)], case by case in the order of the source: a
    literal, then the keys [ref], [let], [do], [if], [function], [macro]
    and [import], each tested with [in], then a call of the function that
    the first key names.  (The last [throw] of the source is out of reach:
    a function is a builtin or a [{params, body}] record.) *)
Fixpoint evaluate (fuel : nat) (expr : Json) (env : nat) (w : World) : Outcome Value :=
  match fuel with
  | 0 => Diverges
  | S fuel =>
    (* evaluate(undefined, env) throws at ["ref" in expr] *)
    let evaluate_node (node : option Json) (env : nat) (w : World) : Outcome Value :=
      match node with
      | Some e => evaluate fuel e env w
      | None => Thrown TypeError w
      end in
    if is_primitive expr then Returned (literal expr) w
    else
    let props := own_entries expr in
    match assoc "ref" props with
    | Some (JStr name) => of_result (getVar (heap w) env name) w
    | Some _ => IllTyped
    | None =>
    match assoc "let" props with
    | Some JNull => Thrown TypeError w
    | Some payload =>
        and_then (evaluate_node (field payload "value") env w) (fun evaluatedValue w =>
        match field payload "name" with
        | Some (JStr name) => Returned evaluatedValue (setVar env name evaluatedValue w)
        | _ => IllTyped
        end)
    | None =>
    match assoc "do" props with
    | Some (JArr body) => evaluate_last (fun e w => evaluate fuel e env w) body VNull w
    | Some (JStr s) =>
        evaluate_last (fun e w => evaluate fuel e env w) (characters s) VNull w
    | Some _ => Thrown TypeError w
    | None =>
    match assoc "if" props with
    | Some JNull => Thrown TypeError w
    | Some payload =>
        and_then (evaluate_node (field payload "condition") env w) (fun condResult w =>
        let branch :=
          if truthy condResult then field payload "true" else field payload "false" in
        if node_truthy branch then evaluate_node branch env w else Returned VNull w)
    | None =>
    match assoc "function" props with
    | Some JNull => Thrown TypeError w
    | Some payload =>
        match field payload "name" with
        | Some (JStr name) =>
            Returned VNull
              (defineFunction env name
                 (User {| params := field payload "params";
                          body := field payload "body" |}) w)
        | _ => IllTyped
        end
    | None =>
    match assoc "macro" props with
    | Some _ => Thrown (Error "Macro expansion not implemented yet") w
    | None =>
    match assoc "import" props with
    | Some _ => Thrown (Error "Import not implemented yet") w
    | None =>
    match props with
    | [] => IllTyped
    | (funcName, args) :: _ =>
        and_then (of_result (getFunction (heap w) env funcName) w) (fun func w =>
        match args with
        | JArr args =>
            and_then (evaluate_each (fun arg w => evaluate fuel arg env w) args w)
              (fun evaluatedArgs w =>
            match func with
            | Builtin fn =>
                match call_builtin fn evaluatedArgs (console w) with
                | Some (v, out) => Returned v {| heap := heap w; console := out |}
                | None => IllTyped
                end
            | User fn =>
                let (localEnv, w) := new_Environment (Some env) w in
                match params fn with
                | Some (JArr params) =>
                    if decide (length params ≠ length evaluatedArgs)
                    then Thrown (Error (arity_message funcName (length params)
                                          (length evaluatedArgs))) w
                    else and_then (bind_arguments params evaluatedArgs 0 localEnv w)
                           (fun _ w => evaluate_node (body fn) localEnv w)
                | Some JNull | None => Thrown TypeError w
                | Some _ => IllTyped
                end
            end)
        | _ => Thrown TypeError w
        end)
    end end end end end end end end
  end.

(** [createGlobalEnv]: a fresh root object with every builtin defined. *)
Definition createGlobalEnv (w : World) : nat * World :=
  let (env, w) := new_Environment None w in
  (env, foldl (fun w '(name, fn) => defineFunction env name (Builtin fn) w) w builtins).

(** ** Programs ([src/schemas/jexl.ts]) and the runner *)

Record Module : Type := {
  module_types : option (list (string * Json));
  exports : list Json;
}.

(** The fields of a [Program] that [runProgram] reads are optional for
    the host, which tests them, so they are options here; a program that
    passed the shape check has its [program]. *)
Record Program : Type := {
  jexl_version : string;
  name : string;
  types : option (list (string * Json));
  modules : option (list (string * Module));
  program : option (list Json);
}.

(** [for (const schema of Object.values(types))
      if (!validateJsonSchema(schema)) return false]. *)
Definition schemas_valid (declared : option (list (string * Json))) : bool :=
  match declared with
  | Some types => forallb validateJsonSchema types.*2
  | None => true
  end.

Definition validateProgramTypes (prog : Program) : bool :=
  schemas_valid (types prog)
  && match modules prog with
     | Some modules => forallb (fun module => schemas_valid (module_types module)) modules.*2
     | None => true
     end.

(** [for (const expr of program.program) evaluate(expr, env)]. *)
Fixpoint evaluate_all (fuel : nat) (exprs : list Json) (env : nat) (w : World)
    : Outcome unit :=
  match exprs with
  | [] => Returned () w
  | expr :: rest =>
      and_then (evaluate fuel expr env w) (fun _ w => evaluate_all fuel rest env w)
  end.

Definition runProgram (fuel : nat) (prog : Program) (w : World) : Outcome unit :=
  if negb (validateProgramTypes prog)
  then Thrown (Error "Invalid program types") w
  else let (env, w) := createGlobalEnv w in
       match program prog with
       | None => Thrown (Error "No program to run") w
       | Some exprs => evaluate_all fuel exprs env w
       end.

(** ** The runner as the specification words it

    Section 4.6 of the specification has the runner expand macros across
    the top-level sequence, with the macro table collected from the
    [MacroDef] entries, before it evaluates.  [runProgram_as_specified]
    follows those words, for comparison with [runProgram]; [consumed]
    says whether the [MacroDef] entries leave the sequence once they are
    collected, which the words leave open. *)
Definition param_of (param : Json) : option Param :=
  match param with
  | JStr name => Some (PName name)
  | JObj [(name, JStr type)] => Some (PTyped name type)
  | _ => None
  end.

Definition macro_of (expr : Json) : option Macro :=
  payload ← field expr "macro";
  match field payload "name", field payload "params", field payload "body" with
  | Some (JStr name), Some (JArr params), Some body =>
      params ← mapM param_of params;
      Some {| macro_name := name; macro_params := params; macro_body := body |}
  | _, _, _ => None
  end.

Definition collect_macros (exprs : list Json) : gmap string Macro :=
  foldl (fun macros expr => match macro_of expr with
                            | Some macroDef => <[macro_name macroDef := macroDef]> macros
                            | None => macros
                            end) ∅ exprs.

Definition runProgram_as_specified (consumed : bool) (fuel : nat) (prog : Program)
    (w : World) : Outcome unit :=
  if negb (validateProgramTypes prog)
  then Thrown (Error "Invalid program types") w
  else let (env, w) := createGlobalEnv w in
       match program prog with
       | None => Thrown (Error "No program to run") w
       | Some exprs =>
           let macros := collect_macros exprs in
           let exprs :=
             if consumed
             then filter (fun expr => macro_of expr = None) exprs
             else exprs in
           and_then (of_result (mapM (fun expr => expand fuel expr macros) exprs) w)
             (fun expanded w => evaluate_all fuel expanded env w)
       end.

End Interpreter.

(** ** Observations on outcomes, and the data of the examples *)

Definition world_of {A : Type} (o : Outcome A) : option World :=
  match o with
  | Returned _ w | Thrown _ w => Some w
  | _ => None
  end.

Definition thrown {A : Type} (o : Outcome A) : option Exception :=
  match o with
  | Thrown e _ => Some e
  | _ => None
  end.

(** The world before anything ran, and the one [createGlobalEnv] makes of
    it: the root environment is at address 0. *)
Definition empty_world : World := {| heap := []; console := [] |}.
Definition root_world : World := (createGlobalEnv empty_world).2.

(** Collaborators for running the examples: none of them prints a number
    or declares a type, so any would do. *)
Definition no_digits : float → string := fun _ => "".
Definition any_schema : Json → bool := fun _ => true.

Definition Ref (name : string) : Json := JObj [("ref", JStr name)].
Definition Call (target : string) (args : list Json) : Json := JObj [(target, JArr args)].
Definition If (condition : Json) (branches : list (string * Json)) : Json :=
  JObj [("if", JObj (("condition", condition) :: branches))].
Definition Let (name : string) (value : Json) : Json :=
  JObj [("let", JObj [("name", JStr name); ("value", value)])].
Definition FunctionDef (name : string) (params : list Json) (body : Json) : Json :=
  JObj [("function", JObj [("name", JStr name); ("params", JArr params); ("body", body)])].
Definition MacroDef (name : string) (params : list Json) (body : Json) : Json :=
  JObj [("macro", JObj [("name", JStr name); ("params", JArr params); ("body", body)])].

(** The macro of the specification's example:
    [unless(condition, body)] is [{if: {condition, false: body}}]. *)
Definition unlessMacro : Macro := {|
  macro_name := "unless";
  macro_params := [PName "condition"; PName "body"];
  macro_body := JObj [("if", JObj [("condition", Ref "condition"); ("false", Ref "body")])];
|}.

Definition unlessCall : Json :=
  Call "unless" [Call "equals" [JNum 1; JNum 2]; Call "print" [JStr "x"]].

(** A macro whose body invokes the macro itself. *)
Definition foreverMacro : Macro := {|
  macro_name := "forever";
  macro_params := [];
  macro_body := Call "forever" [];
|}.

(** Does [key] name a property of an object anywhere in the tree? *)
Fixpoint mentions (key : string) (expr : Json) : bool :=
  match expr with
  | JArr items => existsb (mentions key) items
  | JObj fields =>
      existsb (fun '(k, value) => bool_decide (k = key) || mentions key value) fields
  | _ => false
  end.

(** The keys the evaluator tests before it takes an object for a call. *)
Definition reserved : list string :=
  ["ref"; "let"; "do"; "if"; "function"; "macro"; "import"].

(** The variables of a frame once [names] have been set, in order, to
    [args]: a name that occurs twice keeps its last argument. *)
Definition bound_to (names : list string) (args : list Value) : gmap string Value :=
  list_to_map (reverse (zip names args)).

(** The functions of the root environment. *)
Definition builtin_table : gmap string Function :=
  list_to_map (prod_map id Builtin <$> builtins).

(** What an evaluation in [env] may do to the heap of [w]: allocate
    objects, whose parents are older than they are, and write the maps of
    the one object [env]; no other object changes, and no object changes
    its parent. *)
Definition evolves (env : nat) (w w' : World) : Prop :=
  length (heap w) ≤ length (heap w')
  ∧ (∀ l, l < length (heap w) → l ≠ env → heap w' !! l = heap w !! l)
  ∧ (∀ l, l < length (heap w) → parent <$> heap w' !! l = parent <$> heap w !! l)
  ∧ (∀ l this p, length (heap w) ≤ l → heap w' !! l = Some this →
                 parent this = Some p → p < l).

Definition steady {A : Type} (env : nat) (w : World) (o : Outcome A) : Prop :=
  ∀ w', world_of o = Some w' → evolves env w w'.

(** A program that invokes a macro it declares. *)
Definition shoutProgram : Program := {|
  jexl_version := "v0.1";
  name := "shout";
  types := None;
  modules := None;
  program := Some [Call "shout" []; MacroDef "shout" [] (Call "print" [JStr "hi"])];
|}.

(** Two functions of the root environment: [withX(x)] calls [getX()],
    whose body reads [x]. *)
Definition scopeProgram : Json :=
  JObj [("do", JArr [FunctionDef "getX" [] (Ref "x");
                     FunctionDef "withX" [JArr [JStr "x"; JStr "number"]] (Call "getX" []);
                     Call "withX" [JNum 5]])].

(** The root environment with a function of two parameters. *)
Definition bothFunction : UserFunction := {|
  params := Some (JArr [JArr [JStr "a"; JStr "number"]; JArr [JStr "b"; JStr "number"]]);
  body := Some (Call "add" [Ref "a"; Ref "b"]);
|}.
Definition both_world : World := defineFunction 0 "both" (User bothFunction) root_world.

(** A child of the root environment, where the root binds [x] to 1. *)
Definition shadow_world : World :=
  (new_Environment (Some 0) (setVar 0 "x" (VNum 1) root_world)).2.

(** The nesting depth of a tree. *)
Fixpoint depth (expr : Json) : nat :=
  match expr with
  | JArr items => S (foldr (fun v d => depth v `max` d) 0 items)
  | JObj fields => S (foldr (fun '(_, value) d => depth value `max` d) 0 fields)
  | _ => 0
  end.


(** An outcome that more fuel does not change: unless [o] ran out of
    fuel, [o'] is [o]. *)
Definition settled {A : Type} (o o' : Outcome A) : Prop := o ≠ Diverges → o' = o.


Definition Do (body : list Json) : Json := JObj [("do", JArr body)].



(** * Properties *)

(** ** The macro expander *)

Lemma expand_primitive fuel expr macros :
  is_primitive expr = true → expand (S fuel) expr macros = Done expr.
Proof. intros Hprim. cbn [expand]. by rewrite Hprim. Qed.

(** An invocation is replaced by the expansion of its substituted body,
    whatever the depth already reached. *)
Lemma expand_invocation fuel macros macroName args macroDef bindings :
  macros !! macroName = Some macroDef →
  bind_params (macro_params macroDef) args = Some bindings →
  expand (S fuel) (JObj [(macroName, args)]) macros
  = expand fuel (substitute (macro_body macroDef) bindings) macros.
Proof.
  intros Hdef Hbind.
  cbn [expand is_primitive own_entries invocation].
  by rewrite Hdef, Hbind.
Qed.

Lemma mapM_Result_ext {A B : Type} (f g : A → Result B) (l : list A) (r : Result (list B)) :
  (∀ x y, f x = y → y ≠ OutOfFuel → g x = y) →
  mapM f l = r → r ≠ OutOfFuel → mapM g l = r.
Proof.
  intros Hfg. revert r. induction l as [|x l IH]; intros r; [done|].
  cbn [mapM]. intros <- Hr.
  destruct (f x) as [y| |] eqn:Hfx; cbn in Hr |- *; try done.
  - rewrite (Hfg x (Done y)) by done. cbn.
    destruct (mapM f l) as [ys| |] eqn:Hl; cbn in Hr |- *; try done.
    + by rewrite (IH (Done ys)).
    + by rewrite (IH (Raise e)).
  - by rewrite (Hfg x (Raise e)).
Qed.

Lemma fmap_Result_fuel {A B : Type} (f : A → B) (r : Result A) :
  f <$> r ≠ OutOfFuel → r ≠ OutOfFuel.
Proof. by destruct r. Qed.

(** More fuel never changes what an expansion hands back: [OutOfFuel] is
    the only outcome that depends on the depth allowed. *)
Lemma expand_more_fuel fuel expr macros r :
  expand fuel expr macros = r → r ≠ OutOfFuel → expand (S fuel) expr macros = r.
Proof.
  revert expr r. induction fuel as [|fuel IH]; intros expr r; [by intros <-|].
  intros <-. cbn [expand]. destruct (is_primitive expr); [done|].
  destruct (invocation (own_entries expr) macros) as [[macroDef args]|].
  { destruct (bind_params (macro_params macroDef) args); [|done]. by apply IH. }
  intros Hr%fmap_Result_fuel. f_equal.
  eapply mapM_Result_ext; [|reflexivity|exact Hr].
  intros [key value] y <-. destruct value; try done.
  - intros Hy%fmap_Result_fuel%fmap_Result_fuel. do 2 f_equal.
    eapply mapM_Result_ext; [|reflexivity|exact Hy].
    intros x y <-. by apply IH.
  - intros Hy%fmap_Result_fuel. f_equal. by apply IH.
Qed.


Lemma depth_item v items :
  v ∈ items → depth v ≤ foldr (fun v d => depth v `max` d) 0 items.
Proof.
  induction 1 as [v items|v v' items _ IH]; cbn [foldr]; cbn beta; lia.
Qed.

Lemma depth_field key value (fields : list (string * Json)) :
  (key, value) ∈ fields →
  depth value ≤ foldr (fun '(_, value) d => depth value `max` d) 0 fields.
Proof.
  intros Hin. induction fields as [|[k v] fields IH]; [by apply elem_of_nil in Hin|].
  apply elem_of_cons in Hin as [[= <- <-]|Hin]; cbn [foldr]; cbn beta iota; [lia|].
  specialize (IH Hin). lia.
Qed.



(** C7.  With [unless(condition, body)] defined as
    [{if: {condition: {ref: "condition"}, false: {ref: "body"}}}], the
    expansion of [{unless: [{equals: [1, 2]}, {print: ["x"]}]}] is the [if]
    expression whose condition is [{equals: [1, 2]}] and whose false branch
    is [{print: ["x"]}]: the two argument expressions stand in it as they
    were written, unevaluated, and no [unless] key is left anywhere.  Any
    depth of at least six calls gives it. *)
Theorem expand_unless (k : nat) :
  expand (6 + k) unlessCall {["unless" := unlessMacro]}
  = Done (JObj [("if", JObj [("condition", Call "equals" [JNum 1; JNum 2]);
                             ("false", Call "print" [JStr "x"])])])
  ∧ mentions "unless"
      (JObj [("if", JObj [("condition", Call "equals" [JNum 1; JNum 2]);
                          ("false", Call "print" [JStr "x"])])]) = false
  ∧ bind_params (macro_params unlessMacro)
      (JArr [Call "equals" [JNum 1; JNum 2]; Call "print" [JStr "x"]])
    = Some (<["body" := Some (Call "print" [JStr "x"])]>
              (<["condition" := Some (Call "equals" [JNum 1; JNum 2])]> ∅)).
Proof. repeat split; vm_compute; reflexivity. Qed.

(** C9.  The expander has no depth limit.  Whatever the depth already
    reached, an invocation is replaced by the expansion of its
    substituted body; so with a macro whose body invokes the macro itself
    the expansion of an invocation hands nothing back, however deep the
    calls may nest.  (By [expand_more_fuel] the depth allowed bears on no
    other outcome.) *)
Theorem expand_has_no_depth_limit :
  (∀ fuel macros macroName args macroDef bindings,
     macros !! macroName = Some macroDef →
     bind_params (macro_params macroDef) args = Some bindings →
     expand (S fuel) (JObj [(macroName, args)]) macros
     = expand fuel (substitute (macro_body macroDef) bindings) macros)
  ∧ (∀ fuel, expand fuel (Call "forever" []) {["forever" := foreverMacro]} = OutOfFuel).
Proof.
  split; [exact expand_invocation|].
  induction fuel as [|fuel IH]; [done|].
  unfold Call at 1.
  rewrite (expand_invocation fuel _ "forever" (JArr []) foreverMacro ∅).
  - exact IH.
  - by rewrite lookup_singleton_eq.
  - reflexivity.
Qed.

(** C6.  With no macro at all, the expansion of the special form
    [{foo: {bar: [[1, 2]]}}] is not the tree it was given: the array that
    is an element of an array comes back as the object
    [{"0": 1, "1": 2}]. *)
Theorem expand_rebuilds_inner_array_as_object (k : nat) :
  expand (5 + k) (JObj [("foo", JObj [("bar", JArr [JArr [JNum 1; JNum 2]])])]) ∅
  = Done (JObj [("foo", JObj [("bar", JArr [JObj [("0", JNum 1); ("1", JNum 2)]])])]).
Proof. vm_compute. reflexivity. Qed.


(** ** What an expansion returns *)






(** ** Substitution *)


Lemma map_ext_Forall {A B : Type} (f g : A → B) (l : list A) :
  Forall (fun x => f x = g x) l → map f l = map g l.
Proof. induction 1 as [|x l Hx _ IH]; cbn; [done|]. by rewrite Hx, IH. Qed.



(** A reference is replaced or not by what the bindings hold that is an
    expression. *)
Lemma bound_ref_ext b1 b2 fields :
  (∀ name v, b1 !! name = Some (Some v) ↔ b2 !! name = Some (Some v)) →
  bound_ref fields b1 = bound_ref fields b2.
Proof.
  intros Hsame. unfold bound_ref.
  destruct (assoc "ref" fields) as [[| | |name| |]|]; try done.
  destruct (b1 !! name) as [[v1|]|] eqn:H1, (b2 !! name) as [[v2|]|] eqn:H2; try done.
  - apply Hsame in H1. congruence.
  - apply Hsame in H1. congruence.
  - apply Hsame in H1. congruence.
  - apply Hsame in H2. congruence.
  - apply Hsame in H2. congruence.
Qed.

Lemma substitute_ext_depth b1 b2 n :
  (∀ name v, b1 !! name = Some (Some v) ↔ b2 !! name = Some (Some v)) →
  ∀ expr, depth expr < n → substitute expr b1 = substitute expr b2.
Proof.
  intros Hsame. induction n as [|n IH]; intros expr Hdepth; [lia|].
  destruct expr as [| | | |items|fields]; try done; cbn [substitute].
  - do 2 f_equal. apply map_ext_Forall, Forall_forall. intros value Hin.
    pose proof (depth_item _ _ Hin) as Hvalue. cbn [depth] in Hdepth.
    destruct value as [| | | |items'|fields']; try done.
    + f_equal. apply map_ext_Forall, Forall_forall. intros item Hitem.
      pose proof (depth_item _ _ Hitem) as Hd. cbn [depth] in Hvalue.
      apply IH. lia.
    + apply IH. lia.
  - rewrite (bound_ref_ext b1 b2 fields Hsame).
    destruct (bound_ref fields b2); [done|].
    f_equal. apply map_ext_Forall, Forall_forall. intros [key value] Hin.
    pose proof (depth_field _ _ _ Hin) as Hvalue. cbn [depth] in Hdepth.
    f_equal. destruct value as [| | | |items'|fields']; try done.
    + f_equal. apply map_ext_Forall, Forall_forall. intros item Hitem.
      pose proof (depth_item _ _ Hitem) as Hd. cbn [depth] in Hvalue.
      apply IH. lia.
    + apply IH. lia.
Qed.

Lemma substitute_ext b1 b2 expr :
  (∀ name v, b1 !! name = Some (Some v) ↔ b2 !! name = Some (Some v)) →
  substitute expr b1 = substitute expr b2.
Proof. intros Hsame. apply (substitute_ext_depth b1 b2 (S (depth expr)) Hsame). lia. Qed.

(** A parameter bound to [undefined], which is what a missing argument
    binds it to, is for [substitute] a parameter that is not bound at
    all. *)
Theorem substitute_skips_undefined_bindings bindings name expr :
  substitute expr (<[name := None]> bindings) = substitute expr (delete name bindings).
Proof.
  apply substitute_ext. intros name' v.
  destruct (decide (name = name')) as [<-|Hne].
  - by rewrite lookup_insert_eq, lookup_delete_eq.
  - by rewrite lookup_insert_ne, lookup_delete_ne.
Qed.

(** ** The arguments of an invocation *)

Lemma bind_from_other i params args b name :
  Forall (fun q => getParamName q ≠ name) params →
  bind_from i params args b !! name = b !! name.
Proof.
  intros Hother. revert i b.
  induction Hother as [|q params Hq _ IH]; intros i b; cbn [bind_from]; [done|].
  rewrite IH. by apply lookup_insert_ne.
Qed.

Lemma bind_from_lookup i params args b j p :
  params !! j = Some p →
  (∀ j' q, j < j' → params !! j' = Some q → getParamName q ≠ getParamName p) →
  bind_from i params args b !! getParamName p = Some (arg_at args (i + j)).
Proof.
  revert i b j. induction params as [|q params IH]; intros i b j Hj Hlast; [done|].
  cbn [bind_from]. destruct j as [|j].
  - cbn in Hj. injection Hj as ->.
    rewrite bind_from_other.
    + by rewrite Nat.add_0_r, lookup_insert_eq.
    + apply Forall_forall. intros q Hq.
      apply list_elem_of_lookup in Hq as [j' Hj'].
      apply (Hlast (S j') q); [lia|done].
  - cbn in Hj. rewrite (IH (S i) _ j Hj).
    + f_equal. f_equal. lia.
    + intros j' q' Hlt Hq'. apply (Hlast (S j') q'); [lia|done].
Qed.

(** The parameters of a macro stand for the arguments by position: the
    parameter at position [j], bare or typed, is bound under its name to
    the argument at position [j], or to [undefined] when the invocation
    has fewer arguments, provided no later parameter has the same name
    (the later one wins).  A reference to it in the body is replaced by
    that argument, and left as it is when there is none. *)
Theorem macro_parameters_are_positional params args j p :
  params !! j = Some p →
  (∀ j' q, j < j' → params !! j' = Some q → getParamName q ≠ getParamName p) →
  ∃ bindings,
    bind_params params (JArr args) = Some bindings
    ∧ bindings !! getParamName p = Some (args !! j)
    ∧ substitute (Ref (getParamName p)) bindings
      = match args !! j with
        | Some arg => arg
        | None => Ref (getParamName p)
        end.
Proof.
  intros Hj Hlast. eexists. split; [by destruct params|].
  pose proof (bind_from_lookup 0 params (JArr args) ∅ j p Hj Hlast) as Hlookup.
  cbn [Nat.add arg_at] in Hlookup. split; [exact Hlookup|].
  unfold Ref. cbn [substitute]. unfold bound_ref. cbn [assoc].
  rewrite decide_True by done. rewrite Hlookup.
  by destruct (args !! j).
Qed.

Lemma bind_from_surplus i params args extra b :
  i + length params ≤ length args →
  bind_from i params (JArr (args ++ extra)) b = bind_from i params (JArr args) b.
Proof.
  revert i b. induction params as [|q params IH]; intros i b Hlen; [done|].
  cbn [bind_from arg_at length] in *.
  rewrite lookup_app_l by lia. apply IH. lia.
Qed.

(** An invocation with more arguments than the macro has parameters
    expands as the invocation without the surplus: the arguments beyond
    the parameters are dropped, and no error is raised. *)
Theorem expand_ignores_surplus_arguments fuel macros macroName macroDef args extra :
  macros !! macroName = Some macroDef →
  length (macro_params macroDef) ≤ length args →
  expand fuel (JObj [(macroName, JArr (args ++ extra))]) macros
  = expand fuel (JObj [(macroName, JArr args)]) macros.
Proof.
  intros Hdef Hlen. destruct fuel as [|fuel]; [done|].
  cbn [expand is_primitive own_entries invocation]. rewrite Hdef.
  unfold bind_params. rewrite bind_from_surplus by (cbn; lia).
  by destruct (macro_params macroDef).
Qed.

Lemma bind_from_undefined i params args b :
  (∀ k, i ≤ k → k < i + length params → arg_at args k = None) →
  (∀ name v, b !! name ≠ Some (Some v)) →
  ∀ name v, bind_from i params args b !! name ≠ Some (Some v).
Proof.
  revert i b. induction params as [|q params IH]; intros i b Hargs Hb; [done|].
  cbn [bind_from]. apply IH.
  - intros k Hk1 Hk2. apply Hargs; cbn; lia.
  - intros name v. destruct (decide (getParamName q = name)) as [<-|Hne].
    + rewrite lookup_insert_eq, Hargs by (cbn; lia). done.
    + rewrite lookup_insert_ne by done. apply Hb.
Qed.

(** An invocation whose arguments are given by name, in a record, as the
    schema's test has them, has no argument at any position: unless the
    record has a key that is the decimal numeral of a position, the
    invocation expands as the body of the macro with no parameter bound,
    and the arguments are lost. *)
Theorem expand_drops_named_arguments fuel macros macroName macroDef fields :
  macros !! macroName = Some macroDef →
  (∀ i, i < length (macro_params macroDef) → assoc (pretty i) fields = None) →
  expand (S fuel) (JObj [(macroName, JObj fields)]) macros
  = expand fuel (substitute (macro_body macroDef) ∅) macros.
Proof.
  intros Hdef Hnamed.
  rewrite (expand_invocation fuel macros macroName (JObj fields) macroDef
             (bind_from 0 (macro_params macroDef) (JObj fields) ∅) Hdef).
  - f_equal. apply substitute_ext. intros name v. split; intros Hv.
    + by apply bind_from_undefined in Hv;
        [|intros k _ Hk; apply Hnamed; lia|intros ? ?; rewrite lookup_empty].
    + by rewrite lookup_empty in Hv.
  - by destruct (macro_params macroDef).
Qed.


(** ** Equality of values *)

(** C5, as the code has it.  [equals] is the strict equality of the host.
    On two values of which at least one is no sequence and no mapping it
    is structural equality; on two sequences or mappings it tells whether
    they are one and the same object, whatever they hold. *)
Theorem equals_is_strict_equality :
  (∀ a b, identity a = None ∨ identity b = None →
          builtins_equals a b = VBool (struct_equal a b))
  ∧ (∀ a b ia ib, identity a = Some ia → identity b = Some ib →
                  builtins_equals a b = VBool (bool_decide (ia = ib))).
Proof.
  split.
  - intros a b Hprim. unfold builtins_equals. f_equal.
    destruct a, b; try done; destruct Hprim; done.
  - intros a b ia ib Ha Hb. unfold builtins_equals. f_equal.
    destruct a, b; try done; cbn in *; simplify_eq; cbn.
    1,4: apply bool_decide_ext; naive_solver.
    all: symmetry; by apply bool_decide_eq_false.
Qed.

(** ** The heap under evaluation *)

Lemma evolves_same_heap env w w' : heap w' = heap w → evolves env w w'.
Proof.
  intros Hheap. unfold evolves. rewrite Hheap. repeat split; try done.
  intros l this p Hl Hthis. apply lookup_lt_Some in Hthis. lia.
Qed.

Lemma evolves_refl env w : evolves env w w.
Proof. by apply evolves_same_heap. Qed.

Lemma evolves_trans env w w1 w2 :
  evolves env w w1 → evolves env w1 w2 → evolves env w w2.
Proof.
  intros (Hlen & Hkeep & Hpar & Hnew) (Hlen' & Hkeep' & Hpar' & Hnew').
  repeat split.
  - lia.
  - intros l Hl Hne. rewrite Hkeep' by (done || lia). by apply Hkeep.
  - intros l Hl. rewrite Hpar' by lia. by apply Hpar.
  - intros l this p Hl Hthis Hp.
    destruct (decide (l < length (heap w1))) as [Hlt|Hge].
    + specialize (Hpar' l Hlt). rewrite Hthis in Hpar'. cbn in Hpar'.
      destruct (heap w1 !! l) as [this1|] eqn:H1; [|done].
      injection Hpar' as Hpar'. apply (Hnew l this1 p); [done..|congruence].
    + apply (Hnew' l this p); [lia|done..].
Qed.

Lemma evolves_valid env w w' :
  evolves env w w' → env < length (heap w) → env < length (heap w').
Proof. intros (Hlen & _). lia. Qed.

Lemma evolves_wf env w w' : evolves env w w' → wf_heap (heap w) → wf_heap (heap w').
Proof.
  intros (Hlen & Hkeep & Hpar & Hnew) Hwf l this p Hthis Hp.
  destruct (decide (l < length (heap w))) as [Hlt|Hge].
  - specialize (Hpar l Hlt). rewrite Hthis in Hpar. cbn in Hpar.
    destruct (heap w !! l) as [this0|] eqn:H0; [|done].
    injection Hpar as Hpar. apply (Hwf l this0 p); [done|congruence].
  - apply (Hnew l this p); [lia|done..].
Qed.

Lemma evolves_setVar env name value w : evolves env w (setVar env name value w).
Proof.
  unfold setVar. repeat split; cbn.
  - by rewrite length_alter.
  - intros l _ Hne. by rewrite list_lookup_alter_ne.
  - intros l _. destruct (decide (env = l)) as [->|Hne].
    + rewrite list_lookup_alter_eq. by destruct (heap w !! l).
    + by rewrite list_lookup_alter_ne.
  - intros l this p Hl Hthis. apply lookup_lt_Some in Hthis.
    rewrite length_alter in Hthis. lia.
Qed.

Lemma evolves_defineFunction env name fn w : evolves env w (defineFunction env name fn w).
Proof.
  unfold defineFunction. repeat split; cbn.
  - by rewrite length_alter.
  - intros l _ Hne. by rewrite list_lookup_alter_ne.
  - intros l _. destruct (decide (env = l)) as [->|Hne].
    + rewrite list_lookup_alter_eq. by destruct (heap w !! l).
    + by rewrite list_lookup_alter_ne.
  - intros l this p Hl Hthis. apply lookup_lt_Some in Hthis.
    rewrite length_alter in Hthis. lia.
Qed.

Lemma evolves_console env w out : evolves env w {| heap := heap w; console := out |}.
Proof. by apply evolves_same_heap. Qed.

(** What a callee does to its own fresh frame is nothing to the caller. *)
Lemma evolves_call env w w' :
  env < length (heap w) →
  evolves (length (heap w)) (new_Environment (Some env) w).2 w' →
  evolves env w w'.
Proof.
  intros Henv (Hlen & Hkeep & Hpar & Hnew). cbn in *.
  rewrite length_app in *. cbn in *.
  repeat split.
  - lia.
  - intros l Hl _. rewrite Hkeep by lia. by apply lookup_app_l.
  - intros l Hl. rewrite Hpar by lia. by rewrite lookup_app_l.
  - intros l this p Hl Hthis Hp.
    destruct (decide (l = length (heap w))) as [->|Hne].
    + specialize (Hpar (length (heap w))). rewrite Hthis in Hpar.
      rewrite list_lookup_middle in Hpar by done. cbn in Hpar.
      specialize (Hpar ltac:(lia)). congruence.
    + apply (Hnew l this p); [lia|done..].
Qed.

Lemma steady_returned {A : Type} env w (a : A) w' :
  evolves env w w' → steady env w (Returned a w').
Proof. intros H w'' [= <-]. done. Qed.

Lemma steady_thrown {A : Type} env w e w' :
  evolves env w w' → steady (A := A) env w (Thrown e w').
Proof. intros H w'' [= <-]. done. Qed.

Lemma steady_diverges {A : Type} env w : steady (A := A) env w Diverges.
Proof. by intros w'. Qed.

Lemma steady_illtyped {A : Type} env w : steady (A := A) env w IllTyped.
Proof. by intros w'. Qed.

Lemma steady_of_result {A : Type} env w (r : Result A) : steady env w (of_result r w).
Proof. destruct r; intros w' [= <-]; apply evolves_refl. Qed.

Lemma steady_later {A : Type} env w w1 (o : Outcome A) :
  evolves env w w1 → steady env w1 o → steady env w o.
Proof. intros H1 Ho w' Hw'. eapply evolves_trans; eauto. Qed.

Lemma steady_and_then {A B : Type} env w (o : Outcome A) (k : A → World → Outcome B) :
  steady env w o →
  (∀ a w1, evolves env w w1 → steady env w1 (k a w1)) →
  steady env w (and_then o k).
Proof.
  intros Ho Hk. destruct o as [a w1|e w1| |]; cbn; try done.
  eapply steady_later; [apply Ho|apply Hk, Ho]; done.
Qed.

Lemma steady_call {A : Type} env w (o : Outcome A) :
  env < length (heap w) →
  steady (length (heap w)) (new_Environment (Some env) w).2 o →
  steady env w o.
Proof. intros Henv Ho w' Hw'. by apply evolves_call, Ho. Qed.

Lemma steady_evaluate_each (ev : Json → World → Outcome Value) env args :
  (∀ arg w, env < length (heap w) → steady env w (ev arg w)) →
  ∀ w, env < length (heap w) → steady env w (evaluate_each ev args w).
Proof.
  intros Hev. induction args as [|arg args IH]; intros w Henv; cbn.
  - apply steady_returned, evolves_refl.
  - apply steady_and_then; [by apply Hev|]. intros v w1 H1.
    apply steady_and_then; [by eapply IH, evolves_valid|].
    intros vs w2 H2. apply steady_returned, evolves_refl.
Qed.

Lemma steady_evaluate_last (ev : Json → World → Outcome Value) env body :
  (∀ e w, env < length (heap w) → steady env w (ev e w)) →
  ∀ result w, env < length (heap w) → steady env w (evaluate_last ev body result w).
Proof.
  intros Hev. induction body as [|e body IH]; intros result w Henv; cbn.
  - apply steady_returned, evolves_refl.
  - apply steady_and_then; [by apply Hev|]. intros v w1 H1.
    by eapply IH, evolves_valid.
Qed.

Lemma steady_bind_arguments params evaluatedArgs idx localEnv w :
  steady localEnv w (bind_arguments params evaluatedArgs idx localEnv w).
Proof.
  revert idx w. induction params as [|param params IH]; intros idx w; cbn.
  - apply steady_returned, evolves_refl.
  - destruct (first_of param) as [[[]|]|];
      first [apply steady_illtyped | apply steady_thrown, evolves_refl | idtac].
    eapply steady_later; [apply evolves_setVar|apply IH].
Qed.

Lemma settled_refl {A : Type} (o : Outcome A) : settled o o.
Proof. done. Qed.

Lemma settled_and_then {A B : Type} (o o' : Outcome A) (k k' : A → World → Outcome B) :
  settled o o' → (∀ a w, settled (k a w) (k' a w)) →
  settled (and_then o k) (and_then o' k').
Proof.
  intros Ho Hk Hne. destruct o as [a w|e w| |]; try done.
  - rewrite Ho by done. cbn. by apply Hk.
  - by rewrite Ho.
  - by rewrite Ho.
Qed.

Lemma settled_evaluate_each (ev ev' : Json → World → Outcome Value) args :
  (∀ arg w, settled (ev arg w) (ev' arg w)) →
  ∀ w, settled (evaluate_each ev args w) (evaluate_each ev' args w).
Proof.
  intros Hev. induction args as [|arg args IH]; intros w; cbn; [done|].
  apply settled_and_then; [done|]. intros v w1.
  apply settled_and_then; [done|]. done.
Qed.

Lemma settled_evaluate_last (ev ev' : Json → World → Outcome Value) body :
  (∀ e w, settled (ev e w) (ev' e w)) →
  ∀ result w, settled (evaluate_last ev body result w) (evaluate_last ev' body result w).
Proof.
  intros Hev. induction body as [|e body IH]; intros result w; cbn; [done|].
  apply settled_and_then; [done|]. intros v w1. apply IH.
Qed.

(** In a heap where parents are older than their children, no walk up
    the [parent] chain goes on for ever. *)
Lemma getVar_from_ends fuel h env name :
  wf_heap h → env < fuel → getVar_from fuel h env name ≠ OutOfFuel.
Proof.
  intros Hwf. revert env. induction fuel as [|fuel IH]; intros env Henv; [lia|].
  cbn. destruct (h !! env) as [this|] eqn:Hthis; [|done].
  destruct (vars this !! name); [done|].
  destruct (parent this) as [p|] eqn:Hp; [|done].
  apply IH. specialize (Hwf env this p Hthis Hp). lia.
Qed.

Lemma getFunction_from_ends fuel h env name :
  wf_heap h → env < fuel → getFunction_from fuel h env name ≠ OutOfFuel.
Proof.
  intros Hwf. revert env. induction fuel as [|fuel IH]; intros env Henv; [lia|].
  cbn. destruct (h !! env) as [this|] eqn:Hthis; [|done].
  destruct (functions this !! name); [done|].
  destruct (parent this) as [p|] eqn:Hp; [|done].
  apply IH. specialize (Hwf env this p Hthis Hp). lia.
Qed.

Lemma getVar_here h env this name v :
  h !! env = Some this → vars this !! name = Some v → getVar h env name = Done v.
Proof.
  intros Hthis Hv. unfold getVar.
  destruct (length h) eqn:Hlen.
  { apply lookup_lt_Some in Hthis. lia. }
  cbn. by rewrite Hthis, Hv.
Qed.

Lemma foldl_insert_bound_to (l : list (string * Value)) (m : gmap string Value) :
  foldl (fun m kv => <[kv.1 := kv.2]> m) m l = list_to_map (reverse l) ∪ m.
Proof.
  revert m. induction l as [|[k v] l IH]; intros m; cbn [foldl].
  - by rewrite reverse_nil, list_to_map_nil, (left_id_L ∅ (∪)).
  - rewrite IH, reverse_cons, list_to_map_app. cbn [list_to_map foldr fst snd].
    rewrite <- (assoc_L (∪)). f_equal.
    by rewrite insert_empty, <- insert_union_singleton_l.
Qed.

(** Binding the parameters of a call writes the fresh frame, the last
    object of the heap, and nothing else. *)
Lemma bind_arguments_names params names done args h this out :
  Forall2 (fun param name => first_of param = Some (Some (JStr name))) params names →
  length params = length args →
  bind_arguments params (done ++ args) (length done) (length h)
    {| heap := h ++ [this]; console := out |}
  = Returned ()
      {| heap := h ++ [{| parent := parent this;
                         vars := foldl (fun m kv => <[kv.1 := kv.2]> m) (vars this)
                                   (zip names args);
                         functions := functions this |}];
         console := out |}.
Proof.
  intros Hnames. revert done args this.
  induction Hnames as [|param name params names Hname Hnames IH]; intros done args this Hlen.
  - destruct args; [|done]. cbn. by destruct this.
  - destruct args as [|arg args]; [done|]. cbn [bind_arguments]. rewrite Hname.
    rewrite nth_middle. unfold setVar. cbn [heap console].
    rewrite (alter_app_r_alt _ h [this] (length h)) by lia.
    rewrite Nat.sub_diag. cbn [alter list_alter].
    replace (done ++ arg :: args) with ((done ++ [arg]) ++ args) by by rewrite <- app_assoc.
    replace (S (length done)) with (length (done ++ [arg])) by (rewrite length_app; cbn; lia).
    rewrite IH by (cbn in Hlen; lia). done.
Qed.

Lemma evaluate_each_length ev args w vs w1 :
  evaluate_each ev args w = Returned vs w1 → length vs = length args.
Proof.
  revert w vs w1. induction args as [|arg args IH]; intros w vs w1; cbn.
  - by intros [= <- _].
  - destruct (ev arg w) as [v w2| | |]; try done. cbn.
    destruct (evaluate_each ev args w2) as [vs' w3| | |] eqn:Hrest; try done. cbn.
    intros [= <- _]. cbn. by rewrite (IH _ _ _ Hrest).
Qed.

Lemma defineFunction_last h this out name fn :
  defineFunction (length h) name fn {| heap := h ++ [this]; console := out |}
  = {| heap := h ++ [{| parent := parent this; vars := vars this;
                        functions := <[name := fn]> (functions this) |}];
       console := out |}.
Proof.
  unfold defineFunction. cbn [heap console].
  rewrite (alter_app_r_alt _ h [this] (length h)) by lia.
  by rewrite Nat.sub_diag.
Qed.

(** [createGlobalEnv] allocates one object, the root: it has no parent,
    no variable, and the builtins for functions. *)
Lemma createGlobalEnv_fresh w :
  createGlobalEnv w
  = (length (heap w),
     {| heap := heap w ++ [{| parent := None; vars := ∅; functions := builtin_table |}];
        console := console w |}).
Proof.
  unfold createGlobalEnv, new_Environment, builtins.
  cbn [foldl]. rewrite !defineFunction_last. cbn [parent vars functions].
  reflexivity.
Qed.

(** ** Lookups through the chain of frames *)

Lemma getVar_from_fuel h name fuel1 :
  wf_heap h → ∀ fuel2 env, env < fuel1 → env < fuel2 →
  getVar_from fuel1 h env name = getVar_from fuel2 h env name.
Proof.
  intros Hwf. induction fuel1 as [|fuel1 IH]; intros fuel2 env H1 H2; [lia|].
  destruct fuel2 as [|fuel2]; [lia|]. cbn.
  destruct (h !! env) as [this|] eqn:Hthis; [|done].
  destruct (vars this !! name); [done|].
  destruct (parent this) as [p|] eqn:Hp; [|done].
  specialize (Hwf env this p Hthis Hp). apply IH; lia.
Qed.

Lemma getFunction_from_fuel h name fuel1 :
  wf_heap h → ∀ fuel2 env, env < fuel1 → env < fuel2 →
  getFunction_from fuel1 h env name = getFunction_from fuel2 h env name.
Proof.
  intros Hwf. induction fuel1 as [|fuel1 IH]; intros fuel2 env H1 H2; [lia|].
  destruct fuel2 as [|fuel2]; [lia|]. cbn.
  destruct (h !! env) as [this|] eqn:Hthis; [|done].
  destruct (functions this !! name); [done|].
  destruct (parent this) as [p|] eqn:Hp; [|done].
  specialize (Hwf env this p Hthis Hp). apply IH; lia.
Qed.

(** A frame that does not bind a name answers for it what its parent
    answers, the found value or the error alike, for variables and for
    functions.  (Frames are allocated after their parents.) *)
Theorem lookup_falls_through_to_parent h child this p name :
  wf_heap h → h !! child = Some this → parent this = Some p →
  (vars this !! name = None → getVar h child name = getVar h p name)
  ∧ (functions this !! name = None → getFunction h child name = getFunction h p name).
Proof.
  intros Hwf Hchild Hp.
  pose proof (lookup_lt_Some _ _ _ Hchild) as Hvalid.
  pose proof (Hwf child this p Hchild Hp) as Hlt.
  unfold getVar, getFunction. split; intros Hnone.
  - rewrite (getVar_from_fuel h name (length h) Hwf (S (length h)) child) by lia.
    cbn [getVar_from]. by rewrite Hchild, Hnone, Hp.
  - rewrite (getFunction_from_fuel h name (length h) Hwf (S (length h)) child) by lia.
    cbn [getFunction_from]. by rewrite Hchild, Hnone, Hp.
Qed.

Lemma getFunction_from_setVar fuel env name value w env' f :
  getFunction_from fuel (heap (setVar env name value w)) env' f
  = getFunction_from fuel (heap w) env' f.
Proof.
  revert env'. induction fuel as [|fuel IH]; intros env'; [done|].
  cbn. destruct (decide (env = env')) as [->|Hne].
  - rewrite list_lookup_alter_eq. destruct (heap w !! env') as [this|]; [|done].
    cbn. destruct (functions this !! f); [done|]. destruct (parent this); [|done].
    apply IH.
  - rewrite list_lookup_alter_ne by done. destruct (heap w !! env') as [this|]; [|done].
    destruct (functions this !! f); [done|]. destruct (parent this); [|done].
    apply IH.
Qed.

Lemma getVar_from_defineFunction fuel env name fn w env' x :
  getVar_from fuel (heap (defineFunction env name fn w)) env' x
  = getVar_from fuel (heap w) env' x.
Proof.
  revert env'. induction fuel as [|fuel IH]; intros env'; [done|].
  cbn. destruct (decide (env = env')) as [->|Hne].
  - rewrite list_lookup_alter_eq. destruct (heap w !! env') as [this|]; [|done].
    cbn. destruct (vars this !! x); [done|]. destruct (parent this); [|done].
    apply IH.
  - rewrite list_lookup_alter_ne by done. destruct (heap w !! env') as [this|]; [|done].
    destruct (vars this !! x); [done|]. destruct (parent this); [|done].
    apply IH.
Qed.

(** Variables and functions live in two maps: binding a variable changes
    no function lookup, from any frame and for any name, the variable's
    own included, and defining a function changes no variable lookup. *)
Theorem variables_and_functions_do_not_collide env name value fn w env' other :
  getFunction (heap (setVar env name value w)) env' other = getFunction (heap w) env' other
  ∧ getVar (heap (defineFunction env name fn w)) env' other = getVar (heap w) env' other.
Proof.
  unfold getFunction, getVar. cbn [setVar defineFunction heap].
  rewrite !length_alter. split.
  - apply getFunction_from_setVar.
  - apply getVar_from_defineFunction.
Qed.

Lemma getVar_from_unbound fuel h env name :
  wf_heap h → env < length h → env < fuel →
  (∀ l this, h !! l = Some this → vars this !! name = None) →
  getVar_from fuel h env name = Raise (Error ("Undefined variable: " +:+ name)).
Proof.
  intros Hwf Hvalid Hfuel Hunbound. revert env Hvalid Hfuel.
  induction fuel as [|fuel IH]; intros env Hvalid Hfuel; [lia|].
  cbn. destruct (lookup_lt_is_Some_2 h env Hvalid) as [this Hthis].
  rewrite Hthis, (Hunbound env this Hthis).
  destruct (parent this) as [p|] eqn:Hp; [|done].
  specialize (Hwf env this p Hthis Hp). apply IH; lia.
Qed.

Lemma assoc_list_to_map {A : Type} (l : list (string * A)) key :
  (list_to_map l : gmap string A) !! key = assoc key l.
Proof.
  induction l as [|[k v] l IH]; [done|].
  cbn [list_to_map foldr assoc fst snd]. destruct (decide (k = key)) as [->|Hne].
  - by rewrite lookup_insert_eq.
  - by rewrite lookup_insert_ne.
Qed.

Lemma assoc_fmap {A B : Type} (f : A → B) (l : list (string * A)) key :
  assoc key (prod_map id f <$> l) = f <$> assoc key l.
Proof.
  induction l as [|[k v] l IH]; [done|].
  cbn. by destruct (decide (k = key)).
Qed.

(** In the environment that [createGlobalEnv] returns, the name of each
    builtin resolves to that builtin, and every other name is an
    undefined function. *)
Theorem createGlobalEnv_resolves_builtins w name :
  getFunction (heap (createGlobalEnv w).2) (createGlobalEnv w).1 name
  = match assoc name builtins with
    | Some fn => Done (Builtin fn)
    | None => Raise (Error ("Undefined function: " +:+ name))
    end.
Proof.
  rewrite createGlobalEnv_fresh. cbn [fst snd heap]. unfold getFunction.
  rewrite length_app. cbn [length]. rewrite Nat.add_1_r. cbn [getFunction_from].
  rewrite list_lookup_middle by done. cbn [functions parent].
  unfold builtin_table. rewrite assoc_list_to_map, assoc_fmap.
  by destruct (assoc name builtins).
Qed.

(** ** The evaluator *)

(** The tests [key in expr] on an expression whose keys are known. *)
Ltac key_tests :=
  repeat (cbn [is_primitive own_entries assoc field];
          first [rewrite decide_True by done | rewrite decide_False by done]);
  cbn [is_primitive own_entries assoc field].

(** One step of the proof that evaluation leaves the heap [steady]. *)
Ltac steady_step IH Hnode :=
  match goal with
  | |- evolves _ _ _ =>
      first [apply evolves_refl | apply evolves_setVar | apply evolves_defineFunction
            | apply evolves_console]
  | |- _ < length (heap _) =>
      first [by eauto 6 using evolves_valid
            | solve [cbn; rewrite length_app; cbn; lia]
            | match goal with
              | H : evolves _ _ _ |- _ =>
                  destruct H as [H _]; cbn in H; rewrite length_app in H; cbn in H; lia
              end]
  | |- steady _ _ (bind_arguments _ _ _ _ _) => apply steady_bind_arguments
  | H : new_Environment (Some _) _ = (_, _) |- _ =>
      injection H as <- <-; apply steady_call; [|cbn [new_Environment snd]]
  | |- steady _ _ (Returned _ _) => apply steady_returned
  | |- steady _ _ (Thrown _ _) => apply steady_thrown
  | |- steady _ _ IllTyped => apply steady_illtyped
  | |- steady _ _ Diverges => apply steady_diverges
  | |- steady _ _ (of_result _ _) => apply steady_of_result
  | |- steady _ _ (and_then _ _) => apply steady_and_then; [|intros ? ? ?]
  | |- steady _ _ (evaluate_last _ _ _ _) =>
      apply steady_evaluate_last; [intros ? ? ?|]
  | |- steady _ _ (evaluate_each _ _ _) =>
      apply steady_evaluate_each; [intros ? ? ?|]
  | |- steady _ _ (evaluate _ _ _ _ _) => apply IH
  | |- steady _ _ (match ?node with Some _ => _ | None => Thrown TypeError _ end) =>
      apply Hnode
  end.

(** One step of the proof that more fuel changes no outcome. *)
Ltac settled_step IH Hnode :=
  match goal with
  | |- settled ?o ?o => apply settled_refl
  | |- settled (and_then _ _) (and_then _ _) => apply settled_and_then; [|intros ? ?]
  | |- settled (evaluate_last _ _ _ _) (evaluate_last _ _ _ _) =>
      apply settled_evaluate_last; intros ? ?
  | |- settled (evaluate_each _ _ _) (evaluate_each _ _ _) =>
      apply settled_evaluate_each; intros ? ?
  | |- settled (evaluate _ _ _ _ _) (evaluate _ _ _ _ _) => apply IH
  | |- settled (match ?node with Some _ => _ | None => Thrown TypeError _ end) _ =>
      apply Hnode
  end.

(** ** The console under evaluation *)











Lemma and_then_Returned {A : Type} (o : Outcome A) :
  and_then o (fun a w => Returned a w) = o.
Proof. by destruct o. Qed.

Lemma evaluate_last_app ev before after result w :
  evaluate_last ev (before ++ after) result w
  = and_then (evaluate_last ev before result w)
      (fun result w1 => evaluate_last ev after result w1).
Proof.
  revert result w. induction before as [|e before IH]; intros result w; cbn; [done|].
  destruct (ev e w) as [v w1| | |]; cbn; [apply IH|done..].
Qed.

Lemma getFunction_here h env this name fn :
  h !! env = Some this → functions this !! name = Some fn → getFunction h env name = Done fn.
Proof.
  intros Hthis Hfn. unfold getFunction.
  destruct (length h) eqn:Hlen.
  { apply lookup_lt_Some in Hthis. lia. }
  cbn. by rewrite Hthis, Hfn.
Qed.

Section Properties.

Variable Number_toString : float → string.
Variable validateJsonSchema : Json → bool.

Local Abbreviation eval := (evaluate Number_toString).
Local Abbreviation eval_all := (evaluate_all Number_toString).
Local Abbreviation run := (runProgram Number_toString validateJsonSchema).

(** Evaluating in [env] writes no object that existed before but [env],
    whatever the expression and whether it returns or throws. *)
Lemma steady_evaluate fuel :
  ∀ expr env w, env < length (heap w) → steady env w (eval fuel expr env w).
Proof.
  induction fuel as [|fuel IH]; intros expr env w Henv; [apply steady_diverges|].
  cbn [evaluate].
  assert (Hnode : ∀ node env w, env < length (heap w) →
            steady env w match node with
                         | Some e => eval fuel e env w
                         | None => Thrown TypeError w
                         end).
  { intros [e|] env' w' Henv'; [by apply IH|apply steady_thrown, evolves_refl]. }
  repeat first [steady_step IH Hnode | case_match; subst].
Qed.

(** More fuel never changes what an evaluation hands back: [Diverges] is
    the only outcome that depends on the depth allowed. *)
Lemma settled_evaluate fuel :
  ∀ expr env w, settled (eval fuel expr env w) (eval (S fuel) expr env w).
Proof.
  induction fuel as [|fuel IH]; intros expr env w; [intros Hne; by destruct Hne|].
  assert (Hnode : ∀ node env w,
            settled match node with
                    | Some e => eval fuel e env w
                    | None => Thrown TypeError w
                    end
                    match node with
                    | Some e => eval (S fuel) e env w
                    | None => Thrown TypeError w
                    end).
  { intros [e|] env' w'; [apply IH|apply settled_refl]. }
  set (n := S fuel) at 2. assert (Hn : n = S fuel) by done. clearbody n.
  cbn [evaluate]. subst n.
  repeat first [settled_step IH Hnode | case_match; subst].
Qed.

Lemma evaluate_more_fuel fuel k expr env w o :
  eval fuel expr env w = o → o ≠ Diverges → eval (fuel + k) expr env w = o.
Proof.
  intros <- Hne. induction k as [|k IH]; [by rewrite Nat.add_0_r|].
  rewrite Nat.add_succ_r, <- IH. apply settled_evaluate. by rewrite IH.
Qed.

(** Evaluation keeps parents older than their children. *)
Lemma evaluate_wf fuel expr env w w' :
  wf_heap (heap w) → env < length (heap w) →
  world_of (eval fuel expr env w) = Some w' → wf_heap (heap w').
Proof.
  intros Hwf Henv Hw'. eapply evolves_wf; [|exact Hwf].
  by eapply steady_evaluate.
Qed.

(** What the conditional does once its condition has a value: the branch
    the value selects, when the payload has it and the node is truthy,
    and [null] otherwise. *)
Lemma evaluate_If fuel fields condition env w condResult w1 :
  assoc "condition" fields = Some condition →
  eval fuel condition env w = Returned condResult w1 →
  eval (S fuel) (JObj [("if", JObj fields)]) env w
  = match assoc (if truthy condResult then "true" else "false") fields with
    | Some node =>
        if node_truthy (Some node) then eval fuel node env w1 else Returned VNull w1
    | None => Returned VNull w1
    end.
Proof.
  intros Hfield Hcond. cbn [evaluate]. key_tests.
  rewrite Hfield, Hcond. cbn [and_then].
  destruct (truthy condResult);
    [by destruct (assoc "true" fields)|by destruct (assoc "false" fields)].
Qed.

Lemma evaluate_Let fuel fields name value env w :
  assoc "name" fields = Some (JStr name) →
  assoc "value" fields = Some value →
  eval (S fuel) (JObj [("let", JObj fields)]) env w
  = and_then (eval fuel value env w)
      (fun evaluatedValue w => Returned evaluatedValue (setVar env name evaluatedValue w)).
Proof. intros Hname Hvalue. cbn [evaluate]. key_tests. by rewrite Hname, Hvalue. Qed.

Lemma evaluate_MacroDef fuel payload env w :
  eval (S fuel) (JObj [("macro", payload)]) env w
  = Thrown (Error "Macro expansion not implemented yet") w.
Proof. cbn [evaluate]. by key_tests. Qed.

(** A call, once the function is found and the arguments have values. *)
Lemma evaluate_Call fuel funcName args env w func evaluatedArgs w1 :
  funcName ∉ reserved →
  getFunction (heap w) env funcName = Done func →
  evaluate_each (fun arg w => eval fuel arg env w) args w = Returned evaluatedArgs w1 →
  eval (S fuel) (Call funcName args) env w
  = match func with
    | Builtin fn =>
        match call_builtin Number_toString fn evaluatedArgs (console w1) with
        | Some (v, out) => Returned v {| heap := heap w1; console := out |}
        | None => IllTyped
        end
    | User fn =>
        let (localEnv, w2) := new_Environment (Some env) w1 in
        match params fn with
        | Some (JArr params) =>
            if decide (length params ≠ length evaluatedArgs)
            then Thrown (Error (arity_message funcName (length params)
                                  (length evaluatedArgs))) w2
            else and_then (bind_arguments params evaluatedArgs 0 localEnv w2)
                   (fun _ w3 => match body fn with
                                | Some e => eval fuel e localEnv w3
                                | None => Thrown TypeError w3
                                end)
        | Some JNull | None => Thrown TypeError w2
        | Some _ => IllTyped
        end
    end.
Proof.
  intros Hname Hfunc Hargs. unfold Call. cbn [evaluate].
  unfold reserved in Hname. repeat (apply not_elem_of_cons in Hname as [? Hname]).
  key_tests. rewrite Hfunc. cbn [of_result and_then]. by rewrite Hargs.
Qed.

Lemma evaluate_all_app fuel before after env w :
  eval_all fuel (before ++ after) env w
  = and_then (eval_all fuel before env w) (fun _ w1 => eval_all fuel after env w1).
Proof.
  revert w. induction before as [|expr before IH]; intros w; cbn; [done|].
  by destruct (eval fuel expr env w); cbn.
Qed.

(** C2, as the code has it.  A conditional selects its branch by the
    host's truthiness of the condition's value: the values that select
    the else branch are [false], [null], [undefined], the empty string and
    the numbers 0, -0 and NaN; every other value selects the then branch.
    In particular [{if: {condition: 0, true: "a", false: "b"}}] evaluates to
    ["b"] in every environment. *)
Theorem if_selects_by_host_truthiness :
  (∀ fuel fields condition env w v w1,
     assoc "condition" fields = Some condition →
     eval fuel condition env w = Returned v w1 →
     eval (S fuel) (JObj [("if", JObj fields)]) env w
     = match assoc (if truthy v then "true" else "false") fields with
       | Some node =>
           if node_truthy (Some node) then eval fuel node env w1 else Returned VNull w1
       | None => Returned VNull w1
       end)
  ∧ (∀ v, truthy v = false ↔
          v = VBool false ∨ v = VNull ∨ v = VUndefined ∨ v = VStr ""
          ∨ ∃ n, v = VNum n ∧ (PrimFloat.eqb n 0 = true ∨ PrimFloat.is_nan n = true))
  ∧ (∀ k env w,
       eval (2 + k) (If (JNum 0) [("true", JStr "a"); ("false", JStr "b")]) env w
       = Returned (VStr "b") w).
Proof.
  split; [exact evaluate_If|split].
  - intros v. split.
    + destruct v as [| |[]|n|s| |]; cbn; try done; eauto 10.
      * intros Hn%negb_false_iff%orb_true_iff. eauto 10.
      * intros Hs%negb_false_iff%bool_decide_eq_true. subst. eauto 10.
    + intros [->|[->|[->|[->|(n & -> & Hn)]]]]; try done.
      cbn. apply negb_false_iff, orb_true_iff, Hn.
  - intros k env w. cbn [Nat.add]. unfold If.
    by rewrite (evaluate_If _ _ (JNum 0) _ _ (VNum 0) w).
Qed.

(** C10.  Whether a conditional has the branch its condition selects is
    decided by the host's truthiness of the branch node itself: when the
    selected branch (the then branch for a truthy condition, the else
    branch for a falsy one) is the literal [false], [null], [""] or a
    falsy number, the conditional evaluates to [null], not to the value of
    that literal. *)
Theorem if_branch_presence_is_node_truthiness fuel fields condition env w v w1 node :
  assoc "condition" fields = Some condition →
  eval fuel condition env w = Returned v w1 →
  assoc (if truthy v then "true" else "false") fields = Some node →
  node = JBool false ∨ node = JNull ∨ node = JStr ""
    ∨ (∃ n, node = JNum n ∧ truthy (VNum n) = false) →
  eval (S fuel) (JObj [("if", JObj fields)]) env w = Returned VNull w1.
Proof.
  intros Hfield Hcond Hnode Hfalsy.
  rewrite (evaluate_If _ _ _ _ _ _ _ Hfield Hcond), Hnode.
  destruct Hfalsy as [->|[->|[->|(n & -> & Hn)]]]; try done.
  cbn [node_truthy literal]. by rewrite Hn.
Qed.


(** C3, as the code has it.  A call of a user function whose arguments
    have values, one for each parameter, allocates a frame whose parent is
    the environment the call is evaluated in (the call site, not the
    environment the function was defined in), binds in it the name that
    each parameter destructures to (the first element of a
    [[name, type]] pair) to the argument at the same position, and
    evaluates the body in that frame. *)
Theorem call_runs_body_in_child_of_call_site
    fuel funcName args env w fn formals names code evaluatedArgs w1 :
  funcName ∉ reserved →
  getFunction (heap w) env funcName = Done (User fn) →
  params fn = Some (JArr formals) →
  body fn = Some code →
  evaluate_each (fun arg w => eval fuel arg env w) args w = Returned evaluatedArgs w1 →
  length formals = length args →
  Forall2 (fun param name => first_of param = Some (Some (JStr name))) formals names →
  eval (S fuel) (Call funcName args) env w
  = eval fuel code (length (heap w1))
      {| heap := heap w1 ++ [{| parent := Some env;
                                vars := bound_to names evaluatedArgs;
                                functions := ∅ |}];
         console := console w1 |}.
Proof.
  intros Hname Hfunc Hparams Hbody Hargs Hlen Hnames.
  rewrite (evaluate_Call _ _ _ _ _ _ _ _ Hname Hfunc Hargs).
  cbn [new_Environment]. rewrite Hparams, Hbody.
  rewrite <- (evaluate_each_length _ _ _ _ _ Hargs) in Hlen.
  rewrite decide_False by (intros Hne; by apply Hne).
  pose proof (bind_arguments_names formals names [] evaluatedArgs (heap w1)
                {| parent := Some env; vars := ∅; functions := ∅ |} (console w1)
                Hnames Hlen) as Hbind.
  cbn [app length] in Hbind. rewrite Hbind. cbn [and_then parent vars functions].
  rewrite foldl_insert_bound_to. by rewrite (right_id_L ∅ (∪)).
Qed.


(** C1, as the code has it.  Given a program that has its [program]
    sequence, [runProgram] throws "Invalid program types", with the world
    as it found it, when the declared schemas do not validate.  Otherwise
    it allocates the root environment with the builtins and evaluates the
    top-level expressions in it as they stand, in order: an expression
    that throws ends the run with that error and the world at that point,
    whatever follows it.  No macro is expanded: a [MacroDef] that is
    reached ends the run with "Macro expansion not implemented yet". *)
Theorem runProgram_evaluates_unexpanded fuel prog exprs w :
  program prog = Some exprs →
  (validateProgramTypes validateJsonSchema prog = false →
   run fuel prog w = Thrown (Error "Invalid program types") w)
  ∧ (validateProgramTypes validateJsonSchema prog = true →
     let root := length (heap w) in
     let w0 := {| heap := heap w ++ [{| parent := None; vars := ∅;
                                        functions := builtin_table |}];
                  console := console w |} in
     run fuel prog w = eval_all fuel exprs root w0
     ∧ ∀ before expr after w1,
         exprs = before ++ expr :: after →
         eval_all fuel before root w0 = Returned () w1 →
         (∀ e w2, eval fuel expr root w1 = Thrown e w2 → run fuel prog w = Thrown e w2)
         ∧ (∀ v w2, eval fuel expr root w1 = Returned v w2 →
                    run fuel prog w = eval_all fuel after root w2)
         ∧ (∀ payload, expr = JObj [("macro", payload)] → 0 < fuel →
              run fuel prog w = Thrown (Error "Macro expansion not implemented yet") w1)).
Proof.
  intros Hprogram. unfold runProgram. split; intros Hvalid; rewrite Hvalid; [done|].
  cbn [negb]. rewrite createGlobalEnv_fresh, Hprogram. cbn zeta. split; [done|].
  intros before expr after w1 -> Hbefore.
  rewrite evaluate_all_app, Hbefore. cbn [and_then evaluate_all].
  repeat split.
  - by intros e w2 ->.
  - by intros v w2 ->.
  - intros payload -> Hfuel. destruct fuel as [|fuel]; [lia|].
    by rewrite evaluate_MacroDef.
Qed.


(** ** More of the evaluator *)





(** A reference to a name that no frame binds throws
    "Undefined variable: name", and changes nothing. *)
Theorem ref_of_unbound_name_throws fuel name env w :
  wf_heap (heap w) → env < length (heap w) →
  (∀ l this, heap w !! l = Some this → vars this !! name = None) →
  eval (S fuel) (Ref name) env w = Thrown (Error ("Undefined variable: " +:+ name)) w.
Proof.
  intros Hwf Henv Hunbound. unfold Ref. cbn [evaluate]. key_tests.
  unfold getVar. by rewrite getVar_from_unbound.
Qed.

(** What a [let] binds, a reference reads back: when [value] evaluates
    to [v], the block [{do: [{let: {name, value}}, {ref: name}]}]
    evaluates to [v] as well, in the world that the [let] left. *)
Theorem let_then_ref_reads_back fuel name value env w v w1 :
  env < length (heap w) →
  eval fuel value env w = Returned v w1 →
  eval (S (S fuel)) (Do [Let name value; Ref name]) env w
  = Returned v (setVar env name v w1).
Proof.
  intros Henv Hvalue. unfold Do.
  remember (S fuel) as n eqn:Hn. cbn [evaluate]. key_tests.
  cbn [evaluate_last]. subst n. unfold Let.
  rewrite (evaluate_Let fuel _ name value) by done.
  rewrite Hvalue. cbn [and_then]. unfold Ref. cbn [evaluate]. key_tests.
  pose proof (steady_evaluate fuel value env w Henv) as Hsteady.
  rewrite Hvalue in Hsteady. specialize (Hsteady w1 eq_refl).
  destruct (lookup_lt_is_Some_2 (heap w1) env) as [this Hthis].
  { by eapply evolves_valid. }
  rewrite (getVar_here _ env
             {| parent := parent this; vars := <[name := v]> (vars this);
                functions := functions this |} name v); [done| |].
  - cbn. by rewrite list_lookup_alter_eq, Hthis.
  - cbn. apply lookup_insert_eq.
Qed.

(** A [do] block evaluates its expressions in order, each in the world
    the one before it left, and stops at the first that throws: a block
    is the block of its first expressions followed, when that returns,
    by the block of the others.  The value of a block of one expression
    is the value of that expression. *)
Theorem do_block_runs_in_order fuel before e after env w :
  eval (S fuel) (Do (before ++ e :: after)) env w
  = and_then (eval (S fuel) (Do before) env w)
      (fun _ w1 => eval (S fuel) (Do (e :: after)) env w1)
  ∧ eval (S fuel) (Do [e]) env w = eval fuel e env w.
Proof.
  unfold Do. cbn [evaluate]. key_tests. split.
  - rewrite evaluate_last_app. done.
  - cbn [evaluate_last]. apply and_then_Returned.
Qed.

(** A call of a name that resolves to no function throws the error of
    the lookup before any argument is evaluated: the world is as it was,
    whatever the arguments would have done. *)
Theorem call_of_undefined_function_evaluates_no_argument fuel funcName args env w e :
  funcName ∉ reserved →
  getFunction (heap w) env funcName = Raise e →
  eval (S fuel) (JObj [(funcName, args)]) env w = Thrown e w.
Proof.
  intros Hname Hfunc. cbn [evaluate].
  unfold reserved in Hname. repeat (apply not_elem_of_cons in Hname as [? Hname]).
  key_tests. by rewrite Hfunc.
Qed.


(** A function definition evaluates to [null] and takes effect at once:
    the name then resolves, from the environment of the definition, to
    the function with these parameters and this body, whatever the name
    resolved to before, a builtin included.  No other frame changes, and
    nothing is printed. *)
Theorem function_definition_is_visible_at_once fuel name formals code env w :
  env < length (heap w) →
  ∃ w', eval (S fuel) (FunctionDef name formals code) env w = Returned VNull w'
        ∧ getFunction (heap w') env name
          = Done (User {| params := Some (JArr formals); body := Some code |})
        ∧ (∀ l, l ≠ env → heap w' !! l = heap w !! l)
        ∧ console w' = console w.
Proof.
  intros Henv. destruct (lookup_lt_is_Some_2 (heap w) env Henv) as [this Hthis].
  eexists. split; [|split; [|split]].
  - unfold FunctionDef. cbn [evaluate]. key_tests. reflexivity.
  - eapply getFunction_here.
    + cbn. by rewrite list_lookup_alter_eq, Hthis.
    + cbn. apply lookup_insert_eq.
  - intros l Hl. cbn. by rewrite list_lookup_alter_ne.
  - done.
Qed.

(** An object with the key [import], and none of the keys that
    [evaluate] tests before it, throws "Import not implemented yet" and
    changes nothing, whatever the import names and whatever other keys
    the object has. *)
Theorem import_is_not_implemented fuel fields payload env w :
  Forall (fun key => assoc key fields = None)
         ["ref"; "let"; "do"; "if"; "function"; "macro"] →
  assoc "import" fields = Some payload →
  eval (S fuel) (JObj fields) env w = Thrown (Error "Import not implemented yet") w.
Proof.
  intros Hkeys Himport.
  repeat (apply Forall_cons in Hkeys as [? Hkeys]).
  cbn [evaluate is_primitive own_entries].
  by repeat match goal with H : assoc _ fields = _ |- _ => rewrite H; clear H end.
Qed.


(** The builtins declared on two arguments read the first two and ignore
    the others: no builtin checks how many arguments it is given. *)
Theorem arithmetic_builtins_read_two_arguments fn a b rest out :
  fn ≠ Print → fn ≠ Concat →
  call_builtin Number_toString fn (a :: b :: rest) out
  = call_builtin Number_toString fn [a; b] out.
Proof. by destruct fn. Qed.

End Properties.

(** ** The claims at concrete programs *)

(** C1 fails as stated.  [shoutProgram] invokes the macro [shout], which
    it declares.  [runProgram] looks [shout] up as a function and throws,
    with nothing printed; a runner that expanded macros first, as
    specified, would have printed "hi", whether or not the declaration is
    then evaluated. *)
Lemma runProgram_expands_no_macro :
  thrown (runProgram no_digits any_schema 4 shoutProgram empty_world)
  = Some (Error "Undefined function: shout")
  ∧ console <$> world_of (runProgram no_digits any_schema 4 shoutProgram empty_world)
    = Some []
  ∧ console <$> world_of (runProgram_as_specified no_digits any_schema true 4
                            shoutProgram empty_world)
    = Some [[VStr "hi"]]
  ∧ console <$> world_of (runProgram_as_specified no_digits any_schema false 4
                            shoutProgram empty_world)
    = Some [[VStr "hi"]].
Proof. repeat split; vm_compute; reflexivity. Qed.

(** [runProgram_evaluates_unexpanded] at [shoutProgram]: the first
    expression throws, and that ends the run. *)
Lemma runProgram_witness :
  runProgram no_digits any_schema 4 shoutProgram empty_world
  = Thrown (Error "Undefined function: shout") root_world.
Proof.
  destruct (runProgram_evaluates_unexpanded no_digits any_schema 4 shoutProgram
              [Call "shout" []; MacroDef "shout" [] (Call "print" [JStr "hi"])]
              empty_world eq_refl) as [_ Hruns].
  destruct (Hruns eq_refl) as [_ Hsteps].
  destruct (Hsteps [] (Call "shout" [])
              [MacroDef "shout" [] (Call "print" [JStr "hi"])] root_world
              eq_refl eq_refl) as [Hthrows _].
  apply Hthrows. vm_compute. reflexivity.
Defined.

(** [expand_has_no_depth_limit] at an invocation of [unless]: one step
    takes it to the expansion of the substituted body. *)
Lemma expand_unless_step_witness :
  expand 6 unlessCall {["unless" := unlessMacro]}
  = expand 5 (If (Call "equals" [JNum 1; JNum 2]) [("false", Call "print" [JStr "x"])])
      {["unless" := unlessMacro]}.
Proof.
  unfold unlessCall, Call at 1.
  rewrite (proj1 expand_has_no_depth_limit 5 {["unless" := unlessMacro]} "unless"
             (JArr [Call "equals" [JNum 1; JNum 2]; Call "print" [JStr "x"]]) unlessMacro
             (<["body" := Some (Call "print" [JStr "x"])]>
                (<["condition" := Some (Call "equals" [JNum 1; JNum 2])]> ∅))).
  - reflexivity.
  - by rewrite lookup_singleton_eq.
  - reflexivity.
Defined.


(** C2 fails as stated: with the condition 0 the conditional takes its
    else branch, and evaluates to ["b"]. *)
Lemma if_zero_takes_else :
  evaluate no_digits 2 (If (JNum 0) [("true", JStr "a"); ("false", JStr "b")]) 0 root_world
  = Returned (VStr "b") root_world.
Proof. vm_compute. reflexivity. Qed.

(** [if_selects_by_host_truthiness] at the condition [""]. *)
Lemma if_selects_witness :
  evaluate no_digits 2 (If (JStr "") [("true", JStr "a"); ("false", JStr "b")]) 0 root_world
  = Returned (VStr "b") root_world.
Proof.
  unfold If.
  rewrite (proj1 (if_selects_by_host_truthiness no_digits) 1
             [("condition", JStr ""); ("true", JStr "a"); ("false", JStr "b")]
             (JStr "") 0 root_world (VStr "") root_world eq_refl eq_refl).
  reflexivity.
Defined.

(** [if_branch_presence_is_node_truthiness] at a then branch that is the
    literal [false]: the conditional is [null], not [false]. *)
Lemma if_false_literal_branch_witness :
  evaluate no_digits 2 (If (JBool true) [("true", JBool false); ("false", JStr "b")])
    0 root_world
  = Returned VNull root_world.
Proof.
  apply (if_branch_presence_is_node_truthiness no_digits 1 _ (JBool true) 0 root_world
           (VBool true) root_world (JBool false)).
  - reflexivity.
  - reflexivity.
  - reflexivity.
  - by left.
Defined.

(** C3 fails as stated.  In [scopeProgram] both functions are defined in
    the root environment, at address 0.  The frame of the call of [getX],
    at address 2, has for parent the frame of the call of [withX], at
    address 1, from whose body [getX] is called, and not the root; so the
    body of [getX] reads the parameter [x] of [withX], which the root does
    not bind. *)
Lemma call_frame_parent_is_call_site :
  ∃ w, evaluate no_digits 5 scopeProgram 0 root_world = Returned (VNum 5) w
       ∧ parent <$> heap w = [None; Some 0; Some 1]
       ∧ vars <$> heap w = [∅; {["x" := VNum 5]}; ∅]
       ∧ (heap w !! 0) ≫= (fun root => functions root !! "getX")
         = Some (User {| params := Some (JArr []); body := Some (Ref "x") |})
       ∧ getVar (heap w) 0 "x" = Raise (Error "Undefined variable: x").
Proof.
  eexists. split; [vm_compute; reflexivity|].
  repeat split; vm_compute; reflexivity.
Qed.

Lemma not_reserved_both : "both" ∉ reserved.
Proof.
  unfold reserved. rewrite !not_elem_of_cons.
  repeat split; try done. apply not_elem_of_nil.
Qed.

(** [call_runs_body_in_child_of_call_site] at a call of [both(a, b)] from
    the root environment. *)
Lemma call_witness :
  evaluate no_digits 3 (Call "both" [JNum 1; JNum 2]) 0 both_world
  = evaluate no_digits 2 (Call "add" [Ref "a"; Ref "b"]) 1
      {| heap := heap both_world ++ [{| parent := Some 0;
                                        vars := bound_to ["a"; "b"] [VNum 1; VNum 2];
                                        functions := ∅ |}];
         console := [] |}.
Proof.
  apply (call_runs_body_in_child_of_call_site no_digits 2 "both" [JNum 1; JNum 2] 0
           both_world bothFunction
           [JArr [JStr "a"; JStr "number"]; JArr [JStr "b"; JStr "number"]]
           ["a"; "b"] (Call "add" [Ref "a"; Ref "b"]) [VNum 1; VNum 2] both_world).
  - exact not_reserved_both.
  - vm_compute. reflexivity.
  - reflexivity.
  - reflexivity.
  - reflexivity.
  - reflexivity.
  - repeat constructor.
Defined.



Lemma wf_shadow_world : wf_heap (heap shadow_world).
Proof.
  intros [|[|env]] this p Hthis Hp; vm_compute in Hthis; simplify_eq; cbn in Hp;
    simplify_eq; lia.
Qed.


(** C5 fails as stated: two sequences with the same elements that are
    not the same object are structurally equal, and [equals] says false. *)
Lemma equals_differs_on_equal_sequences :
  struct_equal (VArr 1 [VNum 1; VNum 2]) (VArr 2 [VNum 1; VNum 2]) = true
  ∧ builtins_equals (VArr 1 [VNum 1; VNum 2]) (VArr 2 [VNum 1; VNum 2]) = VBool false.
Proof. split; reflexivity. Qed.

(** [equals_is_strict_equality] at two equal strings and at one sequence
    compared with itself. *)
Lemma equals_witness :
  builtins_equals (VStr "a") (VStr "a") = VBool true
  ∧ builtins_equals (VArr 1 [VNum 1]) (VArr 1 [VNum 1]) = VBool true.
Proof.
  split.
  - apply (proj1 equals_is_strict_equality (VStr "a") (VStr "a")). by left.
  - apply (proj2 equals_is_strict_equality (VArr 1 [VNum 1]) (VArr 1 [VNum 1])
             (true, 1) (true, 1)); reflexivity.
Defined.

Lemma wf_root_world : wf_heap (heap root_world).
Proof.
  intros [|env] this p Hthis Hp; vm_compute in Hthis; simplify_eq; cbn in Hp;
    simplify_eq.
Qed.


(** What the array pattern makes of the parameters the schema admits: of
    a bare string it takes the first character, so the parameter [value]
    is bound as [v]; a [{name: type}] record is not iterable. *)
Lemma parameters_under_the_array_pattern :
  first_of (JStr "value") = Some (Some (JStr "v"))
  ∧ first_of (JObj [("n", JStr "integer")]) = None
  ∧ thrown (evaluate no_digits 4
              (JObj [("do", JArr [FunctionDef "same" [JStr "value"] (Ref "value");
                                  Call "same" [JNum 1]])]) 0 root_world)
    = Some (Error "Undefined variable: value")
  ∧ thrown (evaluate no_digits 4
              (JObj [("do", JArr [FunctionDef "same" [JObj [("n", JStr "integer")]] (Ref "n");
                                  Call "same" [JNum 1]])]) 0 root_world)
    = Some TypeError.
Proof. repeat split; vm_compute; reflexivity. Qed.

(** The recursive Fibonacci function of the specification, with its
    parameter as a [[name, type]] pair: [fib(7)] is 13. *)
Example fibonacci_of_seven :
  ∃ w, evaluate no_digits 30
         (JObj [("do", JArr [
            FunctionDef "fib" [JArr [JStr "n"; JStr "integer"]]
              (If (Call "less" [Ref "n"; JNum 2])
                  [("true", Ref "n");
                   ("false", Call "add" [Call "fib" [Call "subtract" [Ref "n"; JNum 1]];
                                         Call "fib" [Call "subtract" [Ref "n"; JNum 2]]])]);
            Call "fib" [JNum 7]])]) 0 root_world
       = Returned (VNum 13) w.
Proof. eexists. vm_compute. reflexivity. Qed.

(** ** The further properties at concrete programs *)



(** [macro_parameters_are_positional] at the second parameter of
    [unless], given two arguments. *)
Lemma positional_witness :
  ∃ bindings,
    bind_params [PName "condition"; PName "body"]
      (JArr [Call "equals" [JNum 1; JNum 2]; Call "print" [JStr "x"]]) = Some bindings
    ∧ bindings !! "body" = Some (Some (Call "print" [JStr "x"]))
    ∧ substitute (Ref "body") bindings = Call "print" [JStr "x"].
Proof.
  apply (macro_parameters_are_positional [PName "condition"; PName "body"]
           [Call "equals" [JNum 1; JNum 2]; Call "print" [JStr "x"]] 1 (PName "body")).
  - reflexivity.
  - intros [|[|[|j']]] q Hlt Hq; try lia; done.
Defined.

(** [expand_ignores_surplus_arguments] at [unless] with a third
    argument. *)
Lemma surplus_witness :
  expand 6 (JObj [("unless", JArr ([Call "equals" [JNum 1; JNum 2]; Call "print" [JStr "x"]]
                                    ++ [Call "print" [JStr "y"]]))])
    {["unless" := unlessMacro]}
  = expand 6 (JObj [("unless", JArr [Call "equals" [JNum 1; JNum 2];
                                      Call "print" [JStr "x"]])])
      {["unless" := unlessMacro]}.
Proof.
  apply (expand_ignores_surplus_arguments 6 {["unless" := unlessMacro]} "unless" unlessMacro
           [Call "equals" [JNum 1; JNum 2]; Call "print" [JStr "x"]]
           [Call "print" [JStr "y"]]).
  - by rewrite lookup_singleton_eq.
  - cbn. lia.
Defined.

(** [expand_drops_named_arguments] at the invocation of the schema's
    test, [{unless: {condition: {equals: [1, 2]}, body: {print: "not equal"}}}]:
    its expansion is the body of [unless], with the references to
    [condition] and [body] in place and neither argument. *)
Lemma named_arguments_witness :
  expand 6 (JObj [("unless", JObj [("condition", Call "equals" [JNum 1; JNum 2]);
                                    ("body", JObj [("print", JStr "not equal")])])])
    {["unless" := unlessMacro]}
  = Done (If (Ref "condition") [("false", Ref "body")]).
Proof.
  rewrite (expand_drops_named_arguments 5 {["unless" := unlessMacro]} "unless" unlessMacro
             [("condition", Call "equals" [JNum 1; JNum 2]);
              ("body", JObj [("print", JStr "not equal")])]).
  - vm_compute. reflexivity.
  - by rewrite lookup_singleton_eq.
  - intros [|[|i]] Hi; [done|done|cbn in Hi; lia].
Defined.

(** [lookup_falls_through_to_parent] at the child of [shadow_world],
    which binds nothing: [x] and [add] are the root's. *)
Lemma fall_through_witness :
  getVar (heap shadow_world) 1 "x" = getVar (heap shadow_world) 0 "x"
  ∧ getFunction (heap shadow_world) 1 "add" = getFunction (heap shadow_world) 0 "add".
Proof.
  destruct (lookup_falls_through_to_parent (heap shadow_world) 1
              {| parent := Some 0; vars := ∅; functions := ∅ |} 0 "x"
              wf_shadow_world eq_refl eq_refl) as [Hvar _].
  destruct (lookup_falls_through_to_parent (heap shadow_world) 1
              {| parent := Some 0; vars := ∅; functions := ∅ |} 0 "add"
              wf_shadow_world eq_refl eq_refl) as [_ Hfun].
  split; [apply Hvar|apply Hfun]; reflexivity.
Defined.


Lemma root_world_binds_nothing name :
  ∀ l this, heap root_world !! l = Some this → vars this !! name = None.
Proof. intros [|l] this Hthis; vm_compute in Hthis; by simplify_eq. Qed.

(** [ref_of_unbound_name_throws] at the root environment, which binds
    no variable. *)
Lemma unbound_witness :
  evaluate no_digits 1 (Ref "x") 0 root_world
  = Thrown (Error "Undefined variable: x") root_world.
Proof.
  apply (ref_of_unbound_name_throws no_digits 0 "x" 0 root_world wf_root_world).
  - cbn. lia.
  - apply root_world_binds_nothing.
Defined.

(** [let_then_ref_reads_back] at [{let: {name: "x", value: 2}}] in the
    root environment. *)
Lemma read_back_witness :
  evaluate no_digits 3 (Do [Let "x" (JNum 2); Ref "x"]) 0 root_world
  = Returned (VNum 2) (setVar 0 "x" (VNum 2) root_world).
Proof.
  apply (let_then_ref_reads_back no_digits 1 "x" (JNum 2) 0 root_world (VNum 2) root_world).
  - cbn. lia.
  - reflexivity.
Defined.

Lemma not_reserved_shout : "shout" ∉ reserved.
Proof.
  unfold reserved. rewrite !not_elem_of_cons.
  repeat split; try done. apply not_elem_of_nil.
Qed.

(** [call_of_undefined_function_evaluates_no_argument] at a call whose
    argument would print: nothing is printed. *)
Lemma undefined_call_witness :
  evaluate no_digits 3 (Call "shout" [Call "print" [JStr "hi"]]) 0 root_world
  = Thrown (Error "Undefined function: shout") root_world.
Proof.
  apply (call_of_undefined_function_evaluates_no_argument no_digits 2 "shout"
           (JArr [Call "print" [JStr "hi"]]) 0 root_world
           (Error "Undefined function: shout") not_reserved_shout).
  vm_compute. reflexivity.
Defined.



(** [function_definition_is_visible_at_once] at a definition of [add] in
    the root environment, where [add] is a builtin. *)
Lemma definition_witness :
  ∃ w', evaluate no_digits 1 (FunctionDef "add" [] (JNum 0)) 0 root_world = Returned VNull w'
        ∧ getFunction (heap w') 0 "add"
          = Done (User {| params := Some (JArr []); body := Some (JNum 0) |})
        ∧ (∀ l, l ≠ 0 → heap w' !! l = heap root_world !! l)
        ∧ console w' = console root_world.
Proof.
  apply (function_definition_is_visible_at_once no_digits 0 "add" [] (JNum 0) 0 root_world).
  cbn. lia.
Defined.

(** [import_is_not_implemented] at the import of the schema's test. *)
Lemma import_witness :
  evaluate no_digits 1
    (JObj [("import", JObj [("module", JStr "math"); ("symbols", JArr [JStr "square"])])])
    0 root_world
  = Thrown (Error "Import not implemented yet") root_world.
Proof.
  apply (import_is_not_implemented no_digits 0
           [("import", JObj [("module", JStr "math"); ("symbols", JArr [JStr "square"])])]
           (JObj [("module", JStr "math"); ("symbols", JArr [JStr "square"])]) 0 root_world).
  - repeat constructor.
  - reflexivity.
Defined.


(** [arithmetic_builtins_read_two_arguments] at [add] of three
    numbers. *)
Lemma two_arguments_witness :
  call_builtin no_digits Add [VNum 1; VNum 2; VNum 4] []
  = call_builtin no_digits Add [VNum 1; VNum 2] [].
Proof.
  by apply (arithmetic_builtins_read_two_arguments no_digits Add
              (VNum 1) (VNum 2) [VNum 4] []).
Defined.
